(** * Batch-state core of the serving loop: grammar cache and sampling state

    A shallow embedding of

    - [python/sglang/srt/constrained/base_grammar_backend.py]
      (module [GrammarBackend] below): the memoizing cache in front of a
      grammar backend, run by several threads;
    - [python/sglang/srt/sampling/sampling_batch_info.py]
      (modules [Sampling] and [SamplingObjects] below): the row-aligned
      sampling state of a batch.

    The first part of the file holds the model, the second part the
    properties proved about it. *)

From Stdlib Require Import ZArith QArith Lia.
From stdpp Require Import base option list gmap strings.

Open Scope Z_scope.
Open Scope nat_scope.

(* ===================================================================== *)
(** * Part I: the model                                                   *)
(* ===================================================================== *)

(* --------------------------------------------------------------------- *)
(** ** sampling_batch_info.py, by value                                   *)
(* --------------------------------------------------------------------- *)

Module Sampling.

(** Exceptions the modelled code paths can end in. *)
Inductive error :=
| IndexError        (* value[new_indices] with an index out of range *)
| ShapeError        (* torch.cat of tensors whose shapes differ after dim 0 *)
| TypeError.        (* torch.dtype(dtype): the class has no instances *)

Inductive result (A : Type) :=
| Ok (a : A)
| Raise (e : error).
Arguments Ok {A} a.
Arguments Raise {A} e.

#[global] Instance result_ret : MRet result := fun _ a => Ok a.

#[global] Instance result_bind : MBind result := fun _ _ k r =>
  match r with
  | Ok a => k a
  | Raise e => Raise e
  end.

(** A tensor is seen through its first dimension: the list of its rows.
    [temperatures] has shape (n, 1) and the three other parameter arrays
    shape (n,); a row of each holds one number. *)
Definition Tensor (A : Type) := list A.

(** [len(t)] *)
Definition len {A} (t : Tensor A) : nat := length t.

(** [torch.concat([a, b])] along dim 0. *)
Definition torch_concat {A} (a b : Tensor A) : Tensor A := a ++ b.

(** One position of an index tensor: [0 <= i < n] picks row [i],
    [-n <= i < 0] counts from the end, anything else is out of range. *)
Definition row_at {A} (t : Tensor A) (i : Z) : option A :=
  let n := Z.of_nat (length t) in
  if (0 <=? i)%Z && (i <? n)%Z then t !! Z.to_nat i
  else if (- n <=? i)%Z && (i <? 0)%Z then t !! Z.to_nat (n + i)
  else None.

(** [value[new_indices]]: gather the rows the index tensor names, in its
    order. *)
Fixpoint index_rows {A} (t : Tensor A) (new_indices : list Z)
  : result (Tensor A) :=
  match new_indices with
  | [] => Ok []
  | i :: rest =>
      match row_at t i with
      | None => Raise IndexError
      | Some r => rs ← index_rows t rest; Ok (r :: rs)
      end
  end.

(** The logit bias is the one array whose row shape the code reads
    ([lhs.shape[1:]], [lhs.dtype]); each row is kept flattened. *)
Record BiasTensor := {
  bias_dtype : string;
  bias_shape : list nat;            (* shape[1:] *)
  bias_rows : Tensor (list Q)
}.

(** Number of elements of a row of shape [shape]. *)
Definition numel (shape : list nat) : nat := foldr Nat.mul 1 shape.

(** [torch.dtype(dtype)], the expression of the [with] statement of
    [merge_bias_tensor].  [torch.dtype] is a class of which no instance
    can be made, so the call raises TypeError whatever [dtype] is, and
    the body of the [with] statement is not entered. *)
Definition torch_dtype (dtype : string) : result unit := Raise TypeError.

(** [torch.empty((bs, *shape), device=device).fill_(default)]: [bs]
    rows, every element [default]. *)
Definition torch_empty_fill (dtype : string) (bs : nat) (shape : list nat)
  (default : Q) : BiasTensor :=
  {| bias_dtype := dtype;
     bias_shape := shape;
     bias_rows := replicate bs (replicate (numel shape) default) |}.

(** [torch.cat([lhs, rhs])] of two bias tensors: sizes must agree except
    in dimension 0. *)
Definition torch_cat_bias (lhs rhs : BiasTensor) : result BiasTensor :=
  if decide (bias_shape lhs = bias_shape rhs) then
    Ok {| bias_dtype := bias_dtype lhs;
          bias_shape := bias_shape lhs;
          bias_rows := torch_concat (bias_rows lhs) (bias_rows rhs) |}
  else Raise ShapeError.

(** Tensors of penalties: batch rows by vocabulary. *)
Definition PenaltyTensor := Tensor (list Q).

(** [torch.zeros((bs, vocab_size), dtype=torch.float32, device=device)] *)
Definition torch_zeros (bs vocab_size : nat) : PenaltyTensor :=
  replicate bs (replicate vocab_size 0%Q).

(** [r.sampling_params] of a request: temperature, top_p, top_k, min_p.
    Python floats are taken as the rationals they denote; the rounding
    of [dtype=torch.float] plays no part in what follows. *)
Definition SamplingParams := (Q * Q * Z * Q)%type.
Definition sp_temperature (r : SamplingParams) : Q := r.1.1.1.
Definition sp_top_p (r : SamplingParams) : Q := r.1.1.2.
Definition sp_top_k (r : SamplingParams) : Z := r.1.2.
Definition sp_min_p (r : SamplingParams) : Q := r.2.

(** What [sglang.srt.sampling.penaltylib] offers to this file.  The
    library is not part of the sources at hand, so its objects stay
    abstract: an orchestrator, the penalizers it holds and the methods
    called on them.  [is_prepared], [cumulated_repetition_penalties] and
    [apply] read the penalizer; [orch_filter] and [orch_merge] stand for
    the in-place [filter] and [merge] of the orchestrator. *)
Class PenaltyLib := {
  Orchestrator : Type;
  Penalizer : Type;
  penalizers : Orchestrator -> list Penalizer;    (* .penalizers.values() *)
  batch_size : Orchestrator -> nat;               (* .batch.batch_size() *)
  is_prepared : Penalizer -> bool;
  is_repetition : Penalizer -> bool;  (* isinstance(_, BatchedRepetitionPenalizer) *)
  cumulated_repetition_penalties : Penalizer -> PenaltyTensor;
  apply : Penalizer -> PenaltyTensor -> PenaltyTensor;
  orch_filter : list Z -> list Z -> Orchestrator -> Orchestrator;
  orch_merge : Orchestrator -> option Orchestrator -> Orchestrator;
  (* BatchedPenalizerOrchestrator(vocab_size, batch, device, Penalizers) *)
  orch_new : nat -> list SamplingParams -> string -> Orchestrator
}.

(** What a grammar object offers to this file: the class it belongs to
    (whose static [apply_vocab_mask] is recorded), mask allocation and
    the in-place fill of one row of the mask.  A grammar object defines
    neither [__bool__] nor [__len__], so it is truthy and only [None] is
    falsy. *)
Class GrammarObject (G : Type) := {
  MaskRow : Type;
  GrammarClass : Type;
  type_of : G -> GrammarClass;
  allocate_vocab_mask : G -> nat -> nat -> string -> Tensor MaskRow;
  fill_vocab_mask : G -> Tensor MaskRow -> nat -> Tensor MaskRow
}.

Record SamplingBatchInfo `{PenaltyLib} `{GrammarObject G} := {
  (* Batched sampling params *)
  temperatures : Tensor Q;
  top_ps : Tensor Q;
  top_ks : Tensor Z;
  min_ps : Tensor Q;
  (* All requests use greedy sampling *)
  is_all_greedy : bool;
  (* Dispatch in CUDA graph *)
  need_min_p_sampling : bool;
  (* Bias Tensors *)
  vocab_size : nat;
  logit_bias : option BiasTensor;
  vocab_mask : option (Tensor MaskRow);
  apply_mask : option GrammarClass;
  grammars : option (list (option G));
  (* Penalizer *)
  penalizer_orchestrator : option Orchestrator;
  linear_penalties : option PenaltyTensor;
  scaling_penalties : option PenaltyTensor;
  (* Device *)
  device : string
}.
Arguments SamplingBatchInfo {_} G {_}.

Section Methods.
Context `{PenaltyLib} `{GrammarObject G}.

#[local] Abbreviation BatchInfo := (SamplingBatchInfo G).

(** [setattr(self, field, v)], one per assigned attribute. *)
Definition set_temperatures (v : Tensor Q) (s : BatchInfo) : BatchInfo :=
  {| temperatures := v; top_ps := top_ps s; top_ks := top_ks s;
     min_ps := min_ps s; is_all_greedy := is_all_greedy s;
     need_min_p_sampling := need_min_p_sampling s;
     vocab_size := vocab_size s; logit_bias := logit_bias s;
     vocab_mask := vocab_mask s; apply_mask := apply_mask s;
     grammars := grammars s;
     penalizer_orchestrator := penalizer_orchestrator s;
     linear_penalties := linear_penalties s;
     scaling_penalties := scaling_penalties s; device := device s |}.

Definition set_top_ps (v : Tensor Q) (s : BatchInfo) : BatchInfo :=
  {| temperatures := temperatures s; top_ps := v; top_ks := top_ks s;
     min_ps := min_ps s; is_all_greedy := is_all_greedy s;
     need_min_p_sampling := need_min_p_sampling s;
     vocab_size := vocab_size s; logit_bias := logit_bias s;
     vocab_mask := vocab_mask s; apply_mask := apply_mask s;
     grammars := grammars s;
     penalizer_orchestrator := penalizer_orchestrator s;
     linear_penalties := linear_penalties s;
     scaling_penalties := scaling_penalties s; device := device s |}.

Definition set_top_ks (v : Tensor Z) (s : BatchInfo) : BatchInfo :=
  {| temperatures := temperatures s; top_ps := top_ps s; top_ks := v;
     min_ps := min_ps s; is_all_greedy := is_all_greedy s;
     need_min_p_sampling := need_min_p_sampling s;
     vocab_size := vocab_size s; logit_bias := logit_bias s;
     vocab_mask := vocab_mask s; apply_mask := apply_mask s;
     grammars := grammars s;
     penalizer_orchestrator := penalizer_orchestrator s;
     linear_penalties := linear_penalties s;
     scaling_penalties := scaling_penalties s; device := device s |}.

Definition set_min_ps (v : Tensor Q) (s : BatchInfo) : BatchInfo :=
  {| temperatures := temperatures s; top_ps := top_ps s; top_ks := top_ks s;
     min_ps := v; is_all_greedy := is_all_greedy s;
     need_min_p_sampling := need_min_p_sampling s;
     vocab_size := vocab_size s; logit_bias := logit_bias s;
     vocab_mask := vocab_mask s; apply_mask := apply_mask s;
     grammars := grammars s;
     penalizer_orchestrator := penalizer_orchestrator s;
     linear_penalties := linear_penalties s;
     scaling_penalties := scaling_penalties s; device := device s |}.

Definition set_is_all_greedy (v : bool) (s : BatchInfo) : BatchInfo :=
  {| temperatures := temperatures s; top_ps := top_ps s; top_ks := top_ks s;
     min_ps := min_ps s; is_all_greedy := v;
     need_min_p_sampling := need_min_p_sampling s;
     vocab_size := vocab_size s; logit_bias := logit_bias s;
     vocab_mask := vocab_mask s; apply_mask := apply_mask s;
     grammars := grammars s;
     penalizer_orchestrator := penalizer_orchestrator s;
     linear_penalties := linear_penalties s;
     scaling_penalties := scaling_penalties s; device := device s |}.

Definition set_logit_bias (v : option BiasTensor) (s : BatchInfo) : BatchInfo :=
  {| temperatures := temperatures s; top_ps := top_ps s; top_ks := top_ks s;
     min_ps := min_ps s; is_all_greedy := is_all_greedy s;
     need_min_p_sampling := need_min_p_sampling s;
     vocab_size := vocab_size s; logit_bias := v;
     vocab_mask := vocab_mask s; apply_mask := apply_mask s;
     grammars := grammars s;
     penalizer_orchestrator := penalizer_orchestrator s;
     linear_penalties := linear_penalties s;
     scaling_penalties := scaling_penalties s; device := device s |}.

Definition set_vocab_mask (v : option (Tensor MaskRow)) (s : BatchInfo) : BatchInfo :=
  {| temperatures := temperatures s; top_ps := top_ps s; top_ks := top_ks s;
     min_ps := min_ps s; is_all_greedy := is_all_greedy s;
     need_min_p_sampling := need_min_p_sampling s;
     vocab_size := vocab_size s; logit_bias := logit_bias s;
     vocab_mask := v; apply_mask := apply_mask s;
     grammars := grammars s;
     penalizer_orchestrator := penalizer_orchestrator s;
     linear_penalties := linear_penalties s;
     scaling_penalties := scaling_penalties s; device := device s |}.

Definition set_apply_mask (v : option GrammarClass) (s : BatchInfo) : BatchInfo :=
  {| temperatures := temperatures s; top_ps := top_ps s; top_ks := top_ks s;
     min_ps := min_ps s; is_all_greedy := is_all_greedy s;
     need_min_p_sampling := need_min_p_sampling s;
     vocab_size := vocab_size s; logit_bias := logit_bias s;
     vocab_mask := vocab_mask s; apply_mask := v;
     grammars := grammars s;
     penalizer_orchestrator := penalizer_orchestrator s;
     linear_penalties := linear_penalties s;
     scaling_penalties := scaling_penalties s; device := device s |}.

Definition set_grammars (v : option (list (option G))) (s : BatchInfo) : BatchInfo :=
  {| temperatures := temperatures s; top_ps := top_ps s; top_ks := top_ks s;
     min_ps := min_ps s; is_all_greedy := is_all_greedy s;
     need_min_p_sampling := need_min_p_sampling s;
     vocab_size := vocab_size s; logit_bias := logit_bias s;
     vocab_mask := vocab_mask s; apply_mask := apply_mask s;
     grammars := v;
     penalizer_orchestrator := penalizer_orchestrator s;
     linear_penalties := linear_penalties s;
     scaling_penalties := scaling_penalties s; device := device s |}.

Definition set_penalizer_orchestrator (v : option Orchestrator) (s : BatchInfo)
  : BatchInfo :=
  {| temperatures := temperatures s; top_ps := top_ps s; top_ks := top_ks s;
     min_ps := min_ps s; is_all_greedy := is_all_greedy s;
     need_min_p_sampling := need_min_p_sampling s;
     vocab_size := vocab_size s; logit_bias := logit_bias s;
     vocab_mask := vocab_mask s; apply_mask := apply_mask s;
     grammars := grammars s;
     penalizer_orchestrator := v;
     linear_penalties := linear_penalties s;
     scaling_penalties := scaling_penalties s; device := device s |}.

Definition set_linear_penalties (v : option PenaltyTensor) (s : BatchInfo) : BatchInfo :=
  {| temperatures := temperatures s; top_ps := top_ps s; top_ks := top_ks s;
     min_ps := min_ps s; is_all_greedy := is_all_greedy s;
     need_min_p_sampling := need_min_p_sampling s;
     vocab_size := vocab_size s; logit_bias := logit_bias s;
     vocab_mask := vocab_mask s; apply_mask := apply_mask s;
     grammars := grammars s;
     penalizer_orchestrator := penalizer_orchestrator s;
     linear_penalties := v;
     scaling_penalties := scaling_penalties s; device := device s |}.

Definition set_scaling_penalties (v : option PenaltyTensor) (s : BatchInfo) : BatchInfo :=
  {| temperatures := temperatures s; top_ps := top_ps s; top_ks := top_ks s;
     min_ps := min_ps s; is_all_greedy := is_all_greedy s;
     need_min_p_sampling := need_min_p_sampling s;
     vocab_size := vocab_size s; logit_bias := logit_bias s;
     vocab_mask := vocab_mask s; apply_mask := apply_mask s;
     grammars := grammars s;
     penalizer_orchestrator := penalizer_orchestrator s;
     linear_penalties := linear_penalties s;
     scaling_penalties := v; device := device s |}.

(** [x > 0] on floats. *)
Definition Qpos (x : Q) : bool := negb (Qle_bool x 0).

(** [SamplingBatchInfo.from_schedule_batch(batch, vocab_size,
    disable_penalizer)], with [batch.reqs] and [batch.device] passed
    apart. *)
Definition from_schedule_batch (reqs : list SamplingParams)
  (batch_device : string) (vocab : nat) (disable_penalizer : bool) : BatchInfo :=
  let ret :=
    {| temperatures := map sp_temperature reqs;
       top_ps := map sp_top_p reqs;
       top_ks := map sp_top_k reqs;
       min_ps := map sp_min_p reqs;
       need_min_p_sampling := existsb (fun r => Qpos (sp_min_p r)) reqs;
       is_all_greedy := forallb (fun r => (sp_top_k r <=? 1)%Z) reqs;
       vocab_size := vocab;
       logit_bias := None;
       vocab_mask := None;
       apply_mask := None;
       grammars := None;
       penalizer_orchestrator := None;
       linear_penalties := None;
       scaling_penalties := None;
       device := batch_device |} in
  let ret :=
    if disable_penalizer then set_penalizer_orchestrator None ret
    else set_penalizer_orchestrator
           (Some (orch_new vocab reqs batch_device)) ret in
  (* Handle logit bias but only allocate when needed *)
  set_logit_bias None ret.

(** [__len__] *)
Definition info_len (self : BatchInfo) : nat := len (temperatures self).

(** One turn of the loop of [update_penalties] over the penalizers; the
    pair is ([self.scaling_penalties], [self.linear_penalties]). *)
Definition penalty_step (bs vocab : nat)
  (acc : option PenaltyTensor * option PenaltyTensor) (penalizer : Penalizer)
  : option PenaltyTensor * option PenaltyTensor :=
  let '(scaling, linear) := acc in
  if negb (is_prepared penalizer) then acc
  else if is_repetition penalizer then
    (Some (cumulated_repetition_penalties penalizer), linear)
  else
    let linear :=
      match linear with
      | None => torch_zeros bs vocab
      | Some l => l
      end in
    (scaling, Some (apply penalizer linear)).

Definition update_penalties (self : BatchInfo) : BatchInfo :=
  match penalizer_orchestrator self with
  | None => self
  | Some orch =>
      let self := set_scaling_penalties None self in
      let self := set_linear_penalties None self in
      let '(scaling, linear) :=
        fold_left (penalty_step (batch_size orch) (vocab_size self))
          (penalizers orch) (scaling_penalties self, linear_penalties self) in
      set_linear_penalties linear (set_scaling_penalties scaling self)
  end.

(** [any(grammar for grammar in self.grammars)] *)
Definition any_grammar (gs : list (option G)) : bool :=
  existsb (fun g => match g with Some _ => true | None => false end) gs.

(** [next(grammar for grammar in self.grammars if grammar is not None)] *)
Fixpoint next_grammar (gs : list (option G)) : option G :=
  match gs with
  | [] => None
  | Some g :: _ => Some g
  | None :: rest => next_grammar rest
  end.

(** The loop [for i, grammar in enumerate(self.grammars)], started at
    row [i]. *)
Fixpoint fill_loop (i : nat) (gs : list (option G)) (mask : Tensor MaskRow)
  : Tensor MaskRow :=
  match gs with
  | [] => mask
  | Some grammar :: rest => fill_loop (S i) rest (fill_vocab_mask grammar mask i)
  | None :: rest => fill_loop (S i) rest mask
  end.

Definition clear_mask (self : BatchInfo) : BatchInfo :=
  set_apply_mask None (set_vocab_mask None self).

Definition update_regex_vocab_mask (self : BatchInfo) : BatchInfo :=
  match grammars self with
  | None => clear_mask self
  | Some gs =>
      if negb (any_grammar gs) then clear_mask self
      else
        match next_grammar gs with
        | None => clear_mask self     (* not reached: some grammar is set *)
        | Some grammar =>
            let mask :=
              allocate_vocab_mask grammar (vocab_size self)
                (len (temperatures self)) (device self) in
            let self := set_vocab_mask (Some mask) self in
            let self := set_apply_mask (Some (type_of grammar)) self in
            set_vocab_mask (Some (fill_loop 0 gs mask)) self
        end
  end.

(** Methods that assign to attributes of [self] and may raise: the
    attributes as the method leaves them, and its result or exception. *)
Definition Method (A : Type) : Type := BatchInfo -> BatchInfo * result A.

#[local] Instance method_ret : MRet Method := fun _ a s => (s, Ok a).

#[local] Instance method_bind : MBind Method := fun _ _ k m s =>
  match m s with
  | (s', Ok a) => k a s'
  | (s', Raise e) => (s', Raise e)
  end.

Definition getattr {A} (field : BatchInfo -> A) : Method A :=
  fun s => (s, Ok (field s)).

Definition setattr {A} (set : A -> BatchInfo -> BatchInfo) (v : A) : Method unit :=
  fun s => (set v s, Ok tt).

Definition lift {A} (r : result A) : Method A := fun s => (s, r).

(** The attributes of [self] when the method has run, be it to its end or
    to an exception. *)
Definition after {A} (m : Method A) (self : BatchInfo) : BatchInfo := (m self).1.

(** Whether the method ran to its end. *)
Definition completes {A} (m : Method A) (self : BatchInfo) : Prop :=
  ∃ a, (m self).2 = Ok a.

(** [filter_batch(unfinished_indices, new_indices)].  The loop over the
    five attribute names is unrolled; [logit_bias] is the one that can be
    [None]. *)
Definition filter_batch (unfinished_indices new_indices : list Z)
  : Method unit :=
  orch ← getattr penalizer_orchestrator;
  match orch with
  | Some orch =>
      setattr set_penalizer_orchestrator
        (Some (orch_filter unfinished_indices new_indices orch))
  | None => mret tt
  end;;
  value ← getattr temperatures;
  v ← lift (index_rows value new_indices);
  setattr set_temperatures v;;
  value ← getattr top_ps;
  v ← lift (index_rows value new_indices);
  setattr set_top_ps v;;
  value ← getattr top_ks;
  v ← lift (index_rows value new_indices);
  setattr set_top_ks v;;
  value ← getattr min_ps;
  v ← lift (index_rows value new_indices);
  setattr set_min_ps v;;
  value ← getattr logit_bias;
  match value with
  | Some value =>
      v ← lift (index_rows (bias_rows value) new_indices);
      setattr set_logit_bias
        (Some {| bias_dtype := bias_dtype value;
                 bias_shape := bias_shape value;
                 bias_rows := v |})
  | None => mret tt
  end.

(** [merge_bias_tensor(lhs, rhs, bs1, bs2, device, default)] *)
Definition merge_bias_tensor (lhs rhs : option BiasTensor) (bs1 bs2 : nat)
  (dev : string) (default : Q) : result (option BiasTensor) :=
  match lhs, rhs with
  | None, None => Ok None
  | _, _ =>
      let '(shape, dtype) :=
        match lhs, rhs with
        | Some l, _ => (bias_shape l, bias_dtype l)
        | None, Some r => (bias_shape r, bias_dtype r)
        | None, None => ([], EmptyString)
        end in
      torch_dtype dtype;;                  (* with torch.dtype(dtype): *)
      let lhs :=
        match lhs with
        | None => torch_empty_fill dtype bs1 shape default
        | Some l => l
        end in
      let rhs :=
        match rhs with
        | None => torch_empty_fill dtype bs2 shape default
        | Some r => r
        end in
      t ← torch_cat_bias lhs rhs; Ok (Some t)
  end.

(** [merge_batch(other)].  [other] is a second object and is only read.
    The statements run in the order of the source: the four arrays are
    concatenated first, and [len(self)] is read afterwards. *)
Definition merge_batch (other : BatchInfo) : Method unit :=
  orch ← getattr penalizer_orchestrator;
  match orch with
  | Some orch =>
      setattr set_penalizer_orchestrator
        (Some (orch_merge orch (penalizer_orchestrator other)))
  | None => mret tt
  end;;
  self_val ← getattr temperatures;
  setattr set_temperatures (torch_concat self_val (temperatures other));;
  self_val ← getattr top_ps;
  setattr set_top_ps (torch_concat self_val (top_ps other));;
  self_val ← getattr top_ks;
  setattr set_top_ks (torch_concat self_val (top_ks other));;
  self_val ← getattr min_ps;
  setattr set_min_ps (torch_concat self_val (min_ps other));;
  greedy ← getattr is_all_greedy;
  setattr set_is_all_greedy (greedy && is_all_greedy other);;
  lhs ← getattr logit_bias;
  bs1 ← getattr info_len;
  dev ← getattr device;
  b ← lift (merge_bias_tensor lhs (logit_bias other) bs1 (info_len other)
              dev 0%Q);
  setattr set_logit_bias b.

(** *** Vocabulary used to state the properties *)

(** [t'] holds, position by position, the rows of [t] that the index
    tensor [idx] names. *)
Definition gathered {A} (t : Tensor A) (idx : list Z) (t' : Tensor A) : Prop :=
  Forall2 (fun i r => row_at t i = Some r) idx t'.

(** An index that names a row of an array of [n] rows. *)
Definition in_range (n : nat) (i : Z) : Prop :=
  (- Z.of_nat n <= i < Z.of_nat n)%Z.

(** Row alignment: every per-row array has [n] rows. *)
Definition aligned (self : BatchInfo) (n : nat) : Prop :=
  len (temperatures self) = n ∧ len (top_ps self) = n ∧
  len (top_ks self) = n ∧ len (min_ps self) = n ∧
  ∀ b, logit_bias self = Some b -> len (bias_rows b) = n.

(** The rows of [gs], counted from [i], that carry a grammar object. *)
Fixpoint active_rows (i : nat) (gs : list (option G)) : list (nat * G) :=
  match gs with
  | [] => []
  | Some g :: rest => (i, g) :: active_rows (S i) rest
  | None :: rest => active_rows (S i) rest
  end.

(** The rows of the batch that carry an active constraint. *)
Definition constrained_rows (self : BatchInfo) : list (nat * G) :=
  match grammars self with
  | None => []
  | Some gs => active_rows 0 gs
  end.

(** [fill_vocab_mask] called for each of [rows], in order. *)
Definition fill_rows (rows : list (nat * G)) (mask : Tensor MaskRow)
  : Tensor MaskRow :=
  fold_left (fun m ig => fill_vocab_mask ig.2 m ig.1) rows mask.

(** *** Vocabulary for further properties of the sampling state *)

(** The index tensor [k, k+1, ..., k+m-1]. *)
Definition arange (k m : nat) : list Z := Z.of_nat <$> seq k m.

(** [value[new_indices]] on the attribute [logit_bias], which can be
    [None]. *)
Definition index_bias (value : option BiasTensor) (new_indices : list Z)
  : result (option BiasTensor) :=
  match value with
  | None => Ok None
  | Some value =>
      v ← index_rows (bias_rows value) new_indices;
      Ok (Some {| bias_dtype := bias_dtype value;
                  bias_shape := bias_shape value;
                  bias_rows := v |})
  end.

(** Two states with the same five per-row arrays. *)
Definition same_rows (s s' : BatchInfo) : Prop :=
  temperatures s = temperatures s' ∧ top_ps s = top_ps s' ∧
  top_ks s = top_ks s' ∧ min_ps s = min_ps s' ∧
  logit_bias s = logit_bias s'.

(** Two states with the same four parameter arrays. *)
Definition same_params (s s' : BatchInfo) : Prop :=
  temperatures s = temperatures s' ∧ top_ps s = top_ps s' ∧
  top_ks s = top_ks s' ∧ min_ps s = min_ps s'.

(** The prepared penalizers that add to the linear penalties, and those
    that give the scaling penalties, in the order of the orchestrator. *)
Definition linear_contributors (orch : Orchestrator) : list Penalizer :=
  List.filter (fun p => is_prepared p && negb (is_repetition p))
    (penalizers orch).

Definition scaling_contributors (orch : Orchestrator) : list Penalizer :=
  List.filter (fun p => is_prepared p && is_repetition p) (penalizers orch).

(** [penalizer.apply] of each of [ps] in turn, on [start]. *)
Definition apply_all (ps : list Penalizer) (start : PenaltyTensor)
  : PenaltyTensor :=
  fold_left (fun linear p => apply p linear) ps start.

(** [is_all_greedy] says no more than the rows show: when it is set,
    every row has [top_k <= 1]. *)
Definition greedy_sound (s : BatchInfo) : Prop :=
  is_all_greedy s = true -> Forall (fun k => (k <= 1)%Z) (top_ks s).

(** What a state has to be for its rows to be read together: the
    per-row arrays have one row per request of [self], no logit bias is
    held, and [is_all_greedy] is sound. *)
Definition well_formed (s : BatchInfo) : Prop :=
  aligned s (info_len s) ∧ logit_bias s = None ∧ greedy_sound s.

(** Two states that agree on what is neither a per-row array, nor a
    flag, nor the orchestrator. *)
Definition same_buffers (s s' : BatchInfo) : Prop :=
  vocab_size s = vocab_size s' ∧ vocab_mask s = vocab_mask s' ∧
  apply_mask s = apply_mask s' ∧ grammars s = grammars s' ∧
  linear_penalties s = linear_penalties s' ∧
  scaling_penalties s = scaling_penalties s' ∧ device s = device s'.

(** The states the class makes: built by [from_schedule_batch] and then
    changed by its methods only, [filter_batch] being given indices that
    name rows of the batch; [grammars] is the one attribute assigned from
    outside. *)
Inductive derived : BatchInfo -> Prop :=
| derived_new reqs dev vocab disable :
    derived (from_schedule_batch reqs dev vocab disable)
| derived_merge self other :
    derived self -> derived other -> derived (after (merge_batch other) self)
| derived_filter self unf new :
    derived self ->
    Forall (in_range (info_len self)) new ->
    derived (after (filter_batch unf new) self)
| derived_penalties self :
    derived self -> derived (update_penalties self)
| derived_grammars self gs :
    derived self -> derived (set_grammars gs self)
| derived_mask self :
    derived self -> derived (update_regex_vocab_mask self).

End Methods.

Arguments fill_rows : simpl never.

End Sampling.

(* --------------------------------------------------------------------- *)
(** ** sampling_batch_info.py, [copy] on the object store                 *)
(* --------------------------------------------------------------------- *)

(** [copy] hands the attributes of one object to a new one, so what it
    shares is a matter of references.  Here a [SamplingBatchInfo] is an
    object in a store, its tensor-valued and object-valued attributes
    hold references, and the tensors live in a store of their own. *)
Module SamplingObjects.

Definition ref := nat.

Record InfoObject := {
  temperatures : ref;
  top_ps : ref;
  top_ks : ref;
  min_ps : ref;
  is_all_greedy : bool;
  need_min_p_sampling : bool;
  vocab_size : nat;
  logit_bias : option ref;
  vocab_mask : option ref;
  apply_mask : option ref;
  grammars : option ref;
  penalizer_orchestrator : option ref;
  linear_penalties : option ref;
  scaling_penalties : option ref;
  device : string
}.

(** The store: the [SamplingBatchInfo] instances and, apart, the data of
    every tensor. *)
Record Store (Data : Type) := {
  infos : gmap ref InfoObject;
  tensors : gmap ref Data
}.
Arguments infos {Data} s.
Arguments tensors {Data} s.

Section Copy.
Context {Data : Type}.

(** [SamplingBatchInfo(temperatures=self.temperatures, ..., device=
    self.device)]: the eight attributes named in the call are passed on,
    every other field takes its dataclass default [None]. *)
Definition copy_fields (self : InfoObject) : InfoObject :=
  {| temperatures := temperatures self;
     top_ps := top_ps self;
     top_ks := top_ks self;
     min_ps := min_ps self;
     is_all_greedy := is_all_greedy self;
     need_min_p_sampling := need_min_p_sampling self;
     vocab_size := vocab_size self;
     logit_bias := None;
     vocab_mask := None;
     apply_mask := None;
     grammars := None;
     penalizer_orchestrator := None;
     linear_penalties := None;
     scaling_penalties := None;
     device := device self |}.

(** [self.copy()]: allocates the new instance and returns its
    reference; [None] when [self] is not an instance of the store. *)
Definition copy (self : ref) (st : Store Data) : option (ref * Store Data) :=
  o ← infos st !! self;
  let r := fresh (dom (infos st)) in
  Some (r, {| infos := <[r := copy_fields o]> (infos st);
              tensors := tensors st |}).

(** Any later assignment to attributes of the instance at [r], as
    [update_penalties] or [update_regex_vocab_mask] make on the copy. *)
Definition setattrs (r : ref) (f : InfoObject -> InfoObject) (st : Store Data)
  : Store Data :=
  {| infos := alter f r (infos st); tensors := tensors st |}.

(** An in-place write to the tensor at [t]. *)
Definition write_tensor (t : ref) (d : Data) (st : Store Data) : Store Data :=
  {| infos := infos st; tensors := <[t := d]> (tensors st) |}.

(** Reading an array attribute of an instance through the store. *)
Definition read_array (field : InfoObject -> ref) (r : ref) (st : Store Data)
  : option Data :=
  o ← infos st !! r; tensors st !! field o.

End Copy.

End SamplingObjects.

(* --------------------------------------------------------------------- *)
(** ** base_grammar_backend.py                                            *)
(* --------------------------------------------------------------------- *)

Module GrammarBackend.

(** A cache key: (key_type, key_string). *)
Definition Key := (string * string)%type.

(** How a backend compile routine ends: it returns a grammar object or
    [None], or it raises. *)
Inductive outcome (G : Type) :=
| Returns (v : option G)
| Raises.
Arguments Returns {G} v.
Arguments Raises {G}.

(** The abstract methods.  Grammar objects are known by their identity;
    a method that creates objects is given the number of the call, so
    that two calls need not yield the same object. *)
Class Backend (G : Type) := {
  copy : G -> nat -> G;                                (* BaseGrammarObject.copy *)
  dispatch_json : string -> nat -> outcome G;
  dispatch_regex : string -> nat -> outcome G;
  dispatch_ebnf : string -> nat -> outcome G;
  dispatch_structural_tag : string -> nat -> outcome G
}.

Section Cache.
Context `{Backend G}.

(** [raise ValueError(f"Invalid key_type: {key_type}")] *)
Definition dispatch_fallback (key_type key_string : string) : outcome G :=
  Raises.

Definition _init_value_dispatch (key : Key) (n : nat) : outcome G :=
  let '(key_type, key_string) := key in
  if String.eqb key_type "json" then dispatch_json key_string n
  else if String.eqb key_type "regex" then dispatch_regex key_string n
  else if String.eqb key_type "ebnf" then dispatch_ebnf key_string n
  else if String.eqb key_type "structural_tag" then
    dispatch_structural_tag key_string n
  else dispatch_fallback key_type key_string.

(** [CacheEntry]: [event] is the flag of the [threading.Event]. *)
Record CacheEntry := {
  value : option G;
  event : bool
}.

Definition set_value (v : option G) (e : CacheEntry) : CacheEntry :=
  {| value := v; event := event e |}.

Definition set_event (e : CacheEntry) : CacheEntry :=
  {| value := value e; event := true |}.

(** [entry.value.copy() if entry.value else None] *)
Definition copy_value (v : option G) (n : nat) : option G :=
  match v with
  | Some g => Some (copy g n)
  | None => None
  end.

(** The calls a thread can make on the backend. *)
Inductive call :=
| InitValue (key : Key)           (* _init_value(key), also through get_future_value *)
| GetCachedValue (key : Key)      (* get_cached_value(key) *)
| ResetCall.                      (* reset() *)

(** How a call ends. *)
Inductive ending :=
| Return (r : option G)
| Exception.

(** Where a thread stands in its call: the statement it runs next, with
    the locals it has bound.  Acquiring the lock, each statement inside
    the [with] block (the last of them with the release), and each
    statement after it are steps of their own, so that the steps of the
    threads interleave as the statements of the source do.  [CacheEntry]
    objects are named by their address in [entries]. *)
Inductive pc :=
| Start (c : call)                       (* about to enter [with self.cache_lock] *)
| InitLock (key : Key)                   (* line 88, lock held *)
| InitHit (key : Key)                    (* lines 89-90, lock held *)
| InitMiss (key : Key)                   (* lines 92-94, lock held *)
| InitBranch (key : Key) (cache_hit : bool) (entry : nat)   (* line 96 *)
| InitSet (key : Key) (entry : nat)      (* line 100 *)
| InitReturn (key : Key) (entry : nat)   (* line 101 *)
| PeekLock (key : Key)                   (* lines 105-107, lock held *)
| PeekValue (key : Key)                  (* lines 108-109, lock held *)
| ResetLock                              (* line 116, lock held *)
| Done (c : call) (entry : option nat) (e : ending).

(** The backend object and the threads that run its methods.  [clock]
    counts the calls made so far to the abstract methods.  [compiled] and
    [resets] are history: the calls of [_init_value_dispatch] made so far
    with how each ended, and the number of [reset] bodies run. *)
Record state := State {
  cache : gmap Key nat;                  (* self.cache *)
  entries : list CacheEntry;             (* the CacheEntry objects created *)
  cache_lock : option nat;               (* self.cache_lock and its holder *)
  threads : list pc;
  clock : nat;
  compiled : list (Key * outcome G);
  resets : nat
}.

(** The first point inside the [with] block of a call. *)
Definition locked (c : call) : pc :=
  match c with
  | InitValue key => InitLock key
  | GetCachedValue key => PeekLock key
  | ResetCall => ResetLock
  end.

(** One step of thread [i]; [None] when the thread cannot move: it has
    finished, it waits for the lock or for an event. *)
Definition step_thread (i : nat) (s : state) : option state :=
  p ← threads s !! i;
  let goto p' := <[i := p']> (threads s) in
  match p with
  | Start c =>
      match cache_lock s with
      | Some _ => None
      | None =>
          Some (State (cache s) (entries s) (Some i) (goto (locked c))
                  (clock s) (compiled s) (resets s))
      end
  | InitLock key =>
      (* if key in self.cache *)
      let p' := if decide (is_Some (cache s !! key)) then InitHit key
                else InitMiss key in
      Some (State (cache s) (entries s) (cache_lock s) (goto p')
              (clock s) (compiled s) (resets s))
  | InitHit key =>
      (* cache_hit = True; entry = self.cache[key] *)
      match cache s !! key with
      | Some a =>
          Some (State (cache s) (entries s) None (goto (InitBranch key true a))
                  (clock s) (compiled s) (resets s))
      | None =>
          Some (State (cache s) (entries s) None
                  (goto (Done (InitValue key) None Exception))
                  (clock s) (compiled s) (resets s))
      end
  | InitMiss key =>
      (* cache_hit = False; entry = CacheEntry(None, Event());
         self.cache[key] = entry *)
      let a := length (entries s) in
      Some (State (<[key := a]> (cache s))
              (entries s ++ [{| value := None; event := false |}]) None
              (goto (InitBranch key false a))
              (clock s) (compiled s) (resets s))
  | InitBranch key true a =>
      (* entry.event.wait() *)
      e ← entries s !! a;
      if event e then
        Some (State (cache s) (entries s) (cache_lock s)
                (goto (InitReturn key a)) (clock s) (compiled s) (resets s))
      else None
  | InitBranch key false a =>
      (* entry.value = self._init_value_dispatch(key) *)
      let o := _init_value_dispatch key (clock s) in
      match o with
      | Returns v =>
          Some (State (cache s) (alter (set_value v) a (entries s))
                  (cache_lock s) (goto (InitSet key a))
                  (S (clock s)) (compiled s ++ [(key, o)]) (resets s))
      | Raises =>
          Some (State (cache s) (entries s) (cache_lock s)
                  (goto (Done (InitValue key) (Some a) Exception))
                  (S (clock s)) (compiled s ++ [(key, o)]) (resets s))
      end
  | InitSet key a =>
      (* entry.event.set() *)
      Some (State (cache s) (alter set_event a (entries s)) (cache_lock s)
              (goto (InitReturn key a)) (clock s) (compiled s) (resets s))
  | InitReturn key a =>
      (* return entry.value.copy() if entry.value else None *)
      e ← entries s !! a;
      Some (State (cache s) (entries s) (cache_lock s)
              (goto (Done (InitValue key) (Some a)
                       (Return (copy_value (value e) (clock s)))))
              (S (clock s)) (compiled s) (resets s))
  | PeekLock key =>
      (* entry = self.cache.get(key)
         if not entry or not entry.event.is_set(): return None
         (a CacheEntry is truthy, so [not entry] is [entry is None]) *)
      match cache s !! key with
      | None =>
          Some (State (cache s) (entries s) None
                  (goto (Done (GetCachedValue key) None (Return None)))
                  (clock s) (compiled s) (resets s))
      | Some a =>
          e ← entries s !! a;
          if event e then
            Some (State (cache s) (entries s) (cache_lock s)
                    (goto (PeekValue key)) (clock s) (compiled s) (resets s))
          else
            Some (State (cache s) (entries s) None
                    (goto (Done (GetCachedValue key) None (Return None)))
                    (clock s) (compiled s) (resets s))
      end
  | PeekValue key =>
      (* val = self.cache[key].value
         return val.copy() if val else None *)
      match cache s !! key with
      | None =>
          Some (State (cache s) (entries s) None
                  (goto (Done (GetCachedValue key) None Exception))
                  (clock s) (compiled s) (resets s))
      | Some a =>
          e ← entries s !! a;
          Some (State (cache s) (entries s) None
                  (goto (Done (GetCachedValue key) (Some a)
                           (Return (copy_value (value e) (clock s)))))
                  (S (clock s)) (compiled s) (resets s))
      end
  | ResetLock =>
      (* self.cache.clear() *)
      Some (State ∅ (entries s) None (goto (Done ResetCall None (Return None)))
              (clock s) (compiled s) (S (resets s)))
  | Done _ _ _ => None
  end.

(** A fresh backend object ([__init__]) with one thread per call.  A
    thread starts its call when it takes its first step, so the calls
    arrive in any order and at any time. *)
Definition init (calls : list call) : state :=
  State ∅ [] None (Start <$> calls) 0 [] 0.

(** The states some interleaving of the threads leads to. *)
Inductive reachable (calls : list call) : state -> Prop :=
| reach_init : reachable calls (init calls)
| reach_step s i s' :
    reachable calls s -> step_thread i s = Some s' -> reachable calls s'.

(** Running a schedule: the list of the threads that move, in order. *)
Fixpoint run (schedule : list nat) (s : state) : option state :=
  match schedule with
  | [] => Some s
  | i :: rest => s' ← step_thread i s; run rest s'
  end.

(** The compile calls made for [key], in order. *)
Definition compiles_of (key : Key) (s : state) : list (Key * outcome G) :=
  filter (fun c => c.1 = key) (compiled s).

(** *** Vocabulary used to state the properties *)

(** The points of a call at which the thread holds [cache_lock]. *)
Definition holds_lock (p : pc) : Prop :=
  match p with
  | InitLock _ | InitHit _ | InitMiss _ | PeekLock _ | PeekValue _
  | ResetLock => True
  | _ => False
  end.

(** The entry a thread has created and not yet signalled: it is about to
    compile for it, has compiled and is about to set the event, or its
    compile raised. *)
Definition owner_of (p : pc) : option nat :=
  match p with
  | InitBranch _ false a => Some a
  | InitSet _ a => Some a
  | Done (InitValue _) (Some a) Exception => Some a
  | _ => None
  end.

(** The key and the entry a call of [_init_value] works on, once it has
    left the [with] block. *)
Definition entry_of (p : pc) : option (Key * nat) :=
  match p with
  | InitBranch key _ a => Some (key, a)
  | InitSet key a => Some (key, a)
  | InitReturn key a => Some (key, a)
  | Done (InitValue key) (Some a) _ => Some (key, a)
  | _ => None
  end.

(** The entry a thread refers to, if any. *)
Definition addr_of (p : pc) : option nat :=
  match p with
  | InitBranch _ _ a => Some a
  | InitSet _ a => Some a
  | InitReturn _ a => Some a
  | Done _ (Some a) _ => Some a
  | _ => None
  end.

(** [r] is what a caller gets for the stored value [v]: nothing for
    nothing, else the result of a call of [copy] on the stored object. *)
Definition copy_of (v r : option G) : Prop :=
  match v with
  | None => r = None
  | Some g => ∃ n, r = Some (copy g n)
  end.

(** A thread blocked in [entry.event.wait()] on the entry at [a]. *)
Definition waits_on (p : pc) (a : nat) : Prop :=
  ∃ key, p = InitBranch key true a.

(** At most one thread is inside a [with self.cache_lock] block. *)
Definition mutex (s : state) : Prop :=
  ∀ i p, threads s !! i = Some p -> holds_lock p -> cache_lock s = Some i.

(** Every entry the cache or a thread refers to exists. *)
Definition addresses_valid (s : state) : Prop :=
  (∀ key a, cache s !! key = Some a -> a < length (entries s)) ∧
  (∀ i p a, threads s !! i = Some p -> addr_of p = Some a ->
            a < length (entries s)).

(** Two keys never share an entry. *)
Definition cache_injective (s : state) : Prop :=
  ∀ key key' a,
    cache s !! key = Some a -> cache s !! key' = Some a -> key = key'.

(** What a thread saw of the cache under the lock still holds while it
    holds the lock. *)
Definition lock_view (s : state) : Prop :=
  (∀ i key, threads s !! i = Some (InitMiss key) -> cache s !! key = None) ∧
  (∀ i key, threads s !! i = Some (PeekValue key) ->
     ∃ a e, cache s !! key = Some a ∧ entries s !! a = Some e ∧
            event e = true).

(** An entry has one owner. *)
Definition owner_unique (s : state) : Prop :=
  ∀ i j p q a,
    threads s !! i = Some p -> threads s !! j = Some q ->
    owner_of p = Some a -> owner_of q = Some a -> i = j.

(** The entry of an owner is not signalled, and holds no value before
    the owner has stored one. *)
Definition owner_pending (s : state) : Prop :=
  ∀ i p a e,
    threads s !! i = Some p -> owner_of p = Some a ->
    entries s !! a = Some e ->
    event e = false ∧ (value e = None ∨ ∃ key, p = InitSet key a).

(** A call that is about to return reads a signalled entry, and a call
    that has returned got a copy of what the entry holds. *)
Definition result_at (es : list CacheEntry) (p : pc) : Prop :=
  match p with
  | InitReturn _ a => ∃ e, es !! a = Some e ∧ event e = true
  | Done c (Some a) (Return r) =>
      ∃ e, es !! a = Some e ∧ event e = true ∧ copy_of (value e) r
  | Done c None (Return r) => r = None ∧ ∀ key, c ≠ InitValue key
  | _ => True
  end.

Definition results_ok (s : state) : Prop :=
  ∀ i p, threads s !! i = Some p -> result_at (entries s) p.

(** Before the first [reset]: the entry a call of [_init_value] works on
    is the one the cache holds for its key. *)
Definition entry_cached (s : state) : Prop :=
  ∀ i p key a,
    threads s !! i = Some p -> entry_of p = Some (key, a) ->
    cache s !! key = Some a.

(** Before the first [reset]: the compile calls made for a key, against
    the state of its entry. *)
Definition log_ok (s : state) : Prop :=
  ∀ key,
    length (compiles_of key s) <= 1 ∧
    (cache s !! key = None -> compiles_of key s = []) ∧
    (∀ a e, cache s !! key = Some a -> entries s !! a = Some e ->
            event e = true ->
            compiles_of key s = [(key, Returns (value e))]) ∧
    (∀ i p a, threads s !! i = Some p -> entry_of p = Some (key, a) ->
              owner_of p = Some a ->
       match p with
       | InitBranch _ _ _ => compiles_of key s = []
       | InitSet _ _ =>
           ∀ e, entries s !! a = Some e ->
                compiles_of key s = [(key, Returns (value e))]
       | _ => compiles_of key s = [(key, Raises)]
       end).

Definition inv (s : state) : Prop :=
  mutex s ∧ addresses_valid s ∧ cache_injective s ∧ lock_view s ∧
  owner_unique s ∧ owner_pending s ∧ results_ok s ∧
  (resets s = 0 -> entry_cached s ∧ log_ok s).

(** The lock is held by a thread inside a [with] block. *)
Definition lock_held (s : state) : Prop :=
  ∀ i, cache_lock s = Some i ->
       ∃ p, threads s !! i = Some p ∧ holds_lock p.

(** A thread that saw the key in the cache still finds it there. *)
Definition hit_view (s : state) : Prop :=
  ∀ i key, threads s !! i = Some (InitHit key) -> is_Some (cache s !! key).

(** An entry that is not signalled has an owner. *)
Definition owner_exists (s : state) : Prop :=
  ∀ a e, entries s !! a = Some e -> event e = false ->
         ∃ i p, threads s !! i = Some p ∧ owner_of p = Some a.

Definition live_inv (s : state) : Prop :=
  lock_held s ∧ hit_view s ∧ owner_exists s.

(** No call has ended in an exception. *)
Definition no_exception (s : state) : Prop :=
  ∀ i c a, threads s !! i ≠ Some (Done c a Exception).

(** No thread can take a step. *)
Definition stuck (s : state) : Prop := ∀ i, step_thread i s = None.

(** The steps a thread has at most left before its call has ended. *)
Definition steps_left (p : pc) : nat :=
  match p with
  | Start _ => 6
  | InitLock _ => 5
  | InitHit _ | InitMiss _ => 4
  | InitBranch _ _ _ => 3
  | InitSet _ _ => 2
  | InitReturn _ _ => 1
  | PeekLock _ => 2
  | PeekValue _ => 1
  | ResetLock => 1
  | Done _ _ _ => 0
  end.

Definition work_left (s : state) : nat := sum_list (steps_left <$> threads s).

(** The call a thread is running or has run. *)
Definition call_of (p : pc) : call :=
  match p with
  | Start c => c
  | InitLock key | InitHit key | InitMiss key | InitBranch key _ _
  | InitSet key _ | InitReturn key _ => InitValue key
  | PeekLock key | PeekValue key => GetCachedValue key
  | ResetLock => ResetCall
  | Done c _ _ => c
  end.

(** *** Vocabulary for further properties of the cache *)

(** A call of [_init_value] for [key] that has put its entry in the
    cache and has its compile still before it. *)
Definition compile_due (key : Key) (p : pc) : nat :=
  match p with
  | InitBranch k false _ => if decide (k = key) then 1 else 0
  | _ => 0
  end.

Definition compiles_due (key : Key) (s : state) : nat :=
  sum_list (compile_due key <$> threads s).

(** 1 when the cache holds an entry for [key], else 0. *)
Definition cached (key : Key) (s : state) : nat :=
  match cache s !! key with
  | Some _ => 1
  | None => 0
  end.

(** The compiles of a key, made or due, against the resets: each cache
    generation accounts for one. *)
Definition generation_ok (s : state) : Prop :=
  ∀ key,
    compiles_due key s + length (compiles_of key s) <= resets s + cached key s.

(** The key and the entry a thread has read the entry of: as [entry_of],
    and also for a call of [get_cached_value] that has read a value. *)
Definition ref_of (p : pc) : option (Key * nat) :=
  match p with
  | InitBranch key _ a => Some (key, a)
  | InitSet key a => Some (key, a)
  | InitReturn key a => Some (key, a)
  | Done (InitValue key) (Some a) _ => Some (key, a)
  | Done (GetCachedValue key) (Some a) _ => Some (key, a)
  | _ => None
  end.

(** The value of the entry is what some call of the kind dispatch for
    [key] returned. *)
Definition produced (key : Key) (e : CacheEntry) : Prop :=
  ∃ n, _init_value_dispatch key n = Returns (value e).

(** The entry is signalled or holds an object. *)
Definition holds_result (e : CacheEntry) : Prop :=
  event e = true ∨ is_Some (value e).

(** An entry serves one key: the threads and the cache that refer to it
    agree on the key. *)
Definition addr_key_on (c : gmap Key nat) (ths : list pc) : Prop :=
  (∀ i j p q key key' a,
     ths !! i = Some p -> ths !! j = Some q ->
     ref_of p = Some (key, a) -> ref_of q = Some (key', a) -> key = key') ∧
  (∀ i p key key' a,
     ths !! i = Some p -> ref_of p = Some (key, a) ->
     c !! key' = Some a -> key = key').

(** What an entry holds was compiled for the key it serves. *)
Definition provenance_on (c : gmap Key nat) (es : list CacheEntry)
  (ths : list pc) : Prop :=
  (∀ i p key a e,
     ths !! i = Some p -> ref_of p = Some (key, a) -> es !! a = Some e ->
     holds_result e -> produced key e) ∧
  (∀ key a e,
     c !! key = Some a -> es !! a = Some e -> holds_result e ->
     produced key e) ∧
  (∀ i key a e,
     ths !! i = Some (InitSet key a) -> es !! a = Some e -> produced key e).

Definition prov_inv (s : state) : Prop :=
  addr_key_on (cache s) (threads s) ∧
  provenance_on (cache s) (entries s) (threads s).

(** Where the reference of a thread after a step comes from: it had it
    before, or it read it in the cache. *)
Definition ref_source (s : state) (p p' : pc) : Prop :=
  ∀ k x, ref_of p' = Some (k, x) ->
         ref_of p = Some (k, x) ∨ cache s !! k = Some x.

(** The kinds [_init_value_dispatch] knows. *)
Definition recognized (key_type : string) : bool :=
  String.eqb key_type "json" || String.eqb key_type "regex" ||
  String.eqb key_type "ebnf" || String.eqb key_type "structural_tag".

End Cache.

End GrammarBackend.

(* --------------------------------------------------------------------- *)
(** ** Concrete collaborators and inputs                                  *)
(* --------------------------------------------------------------------- *)

(** Small instances of the abstract collaborators, and the inputs on
    which the properties of Part II are exercised. *)
Module Examples.

Import Sampling.

(** A penalizer given by what its methods answer; [apply] adds [shift]
    to every element. *)
Record SimplePenalizer := {
  sp_prepared : bool;
  sp_repetition : bool;
  sp_cumulated : PenaltyTensor;
  sp_shift : Q
}.

#[export] Instance simple_penalties : PenaltyLib := {|
  Orchestrator := list SimplePenalizer * nat;
  Penalizer := SimplePenalizer;
  penalizers := fst;
  batch_size := snd;
  is_prepared := sp_prepared;
  is_repetition := sp_repetition;
  cumulated_repetition_penalties := sp_cumulated;
  apply := fun p t => map (map (Qplus (sp_shift p))) t;
  orch_filter := fun _ new_indices o => (o.1, length new_indices);
  orch_merge := fun o other =>
    match other with
    | Some o' => (o.1, o.2 + o'.2)
    | None => o
    end;
  orch_new := fun _ reqs _ => ([], length reqs)
|}.

(** A grammar object given by the tokens it allows; a mask row marks the
    permitted tokens, a fresh mask permits all of them and filling row
    [i] writes the allowed tokens there. *)
#[export] Instance simple_grammar : GrammarObject (list bool) := {|
  MaskRow := list bool;
  GrammarClass := unit;
  type_of := fun _ => tt;
  allocate_vocab_mask := fun _ vocab batch _ =>
    replicate batch (replicate vocab true);
  fill_vocab_mask := fun g mask i => <[i := g]> mask
|}.

Definition SimpleInfo := SamplingBatchInfo (list bool).

(** Three requests A, B, C and a fourth one D that uses min_p. *)
Definition reqA : SamplingParams := (1, 1, 1%Z, 0)%Q.
Definition reqB : SamplingParams := (7 # 10, 9 # 10, 40%Z, 0)%Q.
Definition reqC : SamplingParams := (1 # 2, 1, (-1)%Z, 0)%Q.
Definition reqD : SamplingParams := (1, 1, 1%Z, 1 # 20)%Q.

Definition batchABC : SimpleInfo :=
  from_schedule_batch [reqA; reqB; reqC] "cuda" 2 true.

Definition batchAB : SimpleInfo :=
  from_schedule_batch [reqA; reqB] "cuda" 2 true.

Definition batchD : SimpleInfo :=
  from_schedule_batch [reqD] "cuda" 2 true.

(** A logit bias for one row over a vocabulary of two tokens. *)
Definition bias_one_row : BiasTensor :=
  {| bias_dtype := "float32"; bias_shape := [2];
     bias_rows := [[1 # 2; -1]%Q] |}.

(** One request carrying a logit bias. *)
Definition batchC_biased : SimpleInfo :=
  set_logit_bias (Some bias_one_row)
    (from_schedule_batch [reqC] "cuda" 2 true).

(** A frequency-like penalizer and a repetition penalizer, both
    prepared, over the two rows A, B. *)
Definition frequency_penalizer : SimplePenalizer :=
  {| sp_prepared := true; sp_repetition := false; sp_cumulated := [];
     sp_shift := (-1 # 4)%Q |}.

Definition repetition_penalizer : SimplePenalizer :=
  {| sp_prepared := true; sp_repetition := true;
     sp_cumulated := [[1; 6 # 5]; [1; 1]]%Q; sp_shift := 0%Q |}.

Definition orchestratorAB : list SimplePenalizer * nat :=
  ([frequency_penalizer; repetition_penalizer], 2).

Definition batchAB_penalized : SimpleInfo :=
  set_penalizer_orchestrator (Some orchestratorAB) batchAB.

(** Rows A, B, C of which only B is constrained: its grammar allows the
    first token only. *)
Definition batchABC_constrained : SimpleInfo :=
  set_grammars (Some [None; Some [true; false]; None]) batchABC.

(** A mask row that permits every token. *)
Definition permits_all (row : list bool) : Prop :=
  Forall (fun b => b = true) row.

(** A store with one [SamplingBatchInfo] at address 0 that has a logit
    bias (the tensor at 14) and derived state. *)
Definition biased_object : SamplingObjects.InfoObject :=
  {| SamplingObjects.temperatures := 10;
     SamplingObjects.top_ps := 11;
     SamplingObjects.top_ks := 12;
     SamplingObjects.min_ps := 13;
     SamplingObjects.is_all_greedy := false;
     SamplingObjects.need_min_p_sampling := false;
     SamplingObjects.vocab_size := 2;
     SamplingObjects.logit_bias := Some 14;
     SamplingObjects.vocab_mask := Some 15;
     SamplingObjects.apply_mask := None;
     SamplingObjects.grammars := None;
     SamplingObjects.penalizer_orchestrator := Some 16;
     SamplingObjects.linear_penalties := Some 17;
     SamplingObjects.scaling_penalties := None;
     SamplingObjects.device := "cuda" |}.

Definition biased_store : SamplingObjects.Store (list Q) :=
  {| SamplingObjects.infos := {[ 0 := biased_object ]};
     SamplingObjects.tensors :=
       {[ 10 := [1]%Q; 11 := [1]%Q; 12 := [1]%Q; 13 := [0]%Q;
          14 := [1 # 2; -1]%Q ]} |}.

(** A backend whose grammar objects are numbered: [copy] yields a new
    number, the json and ebnf compilers return the object of the call,
    the regex and structural tag compilers do not support their input. *)
#[export] Instance numbering_backend : GrammarBackend.Backend nat := {|
  GrammarBackend.copy := fun g n => S (g + n);
  GrammarBackend.dispatch_json := fun _ n => GrammarBackend.Returns (Some n);
  GrammarBackend.dispatch_regex := fun _ _ => GrammarBackend.Returns None;
  GrammarBackend.dispatch_ebnf := fun _ n => GrammarBackend.Returns (Some n);
  GrammarBackend.dispatch_structural_tag := fun _ _ =>
    GrammarBackend.Returns None
|}.

Definition json_key : GrammarBackend.Key := ("json", "{}").
Definition yaml_key : GrammarBackend.Key := ("yaml", "a: 1").

(** Two concurrent callers of [_init_value] for one json key and a
    third thread that peeks; a schedule that interleaves them to the
    end. *)
Definition json_callers : list GrammarBackend.call :=
  [GrammarBackend.InitValue json_key; GrammarBackend.InitValue json_key;
   GrammarBackend.GetCachedValue json_key].

Definition json_schedule : list nat :=
  [0; 0; 0; 1; 1; 1; 0; 0; 2; 2; 2; 1; 0; 1].

(** Two concurrent callers for a key of unknown kind; the first one
    compiles, the second one finds the entry. *)
Definition yaml_callers : list GrammarBackend.call :=
  [GrammarBackend.InitValue yaml_key; GrammarBackend.InitValue yaml_key].

Definition yaml_schedule : list nat := [0; 0; 0; 0; 1; 1; 1].

(** The first part of [json_schedule], up to the setting of the event,
    and the rest of it. *)
Definition json_schedule_set : list nat := [0; 0; 0; 1; 1; 1; 0; 0].
Definition json_schedule_rest : list nat := [2; 2; 2; 1; 0; 1].

(** A caller for the json key, a reset, and a second caller for the same
    key, one after the other. *)
Definition reset_callers : list GrammarBackend.call :=
  [GrammarBackend.InitValue json_key; GrammarBackend.ResetCall;
   GrammarBackend.InitValue json_key].

Definition reset_schedule : list nat :=
  [0; 0; 0; 0; 0; 0; 1; 1; 2; 2; 2; 2; 2; 2].

End Examples.

(* ===================================================================== *)
(** * Part II: properties                                                 *)
(* ===================================================================== *)

Module SamplingTheory.

Import Sampling.

(** Unfolds the plumbing of [Method]. *)
Ltac run_method :=
  unfold after, completes, mbind, method_bind, getattr, setattr, lift, mret,
    method_ret;
  cbn.

Section Properties.
Context {PL : PenaltyLib} {G : Type} {GO : GrammarObject G}.

#[local] Abbreviation BatchInfo := (SamplingBatchInfo G).

(** *** merge_batch *)

Lemma merge_batch_after (self other : BatchInfo) :
  let s' := after (merge_batch other) self in
  temperatures s' = temperatures self ++ temperatures other ∧
  top_ps s' = top_ps self ++ top_ps other ∧
  top_ks s' = top_ks self ++ top_ks other ∧
  min_ps s' = min_ps self ++ min_ps other ∧
  is_all_greedy s' = is_all_greedy self && is_all_greedy other ∧
  need_min_p_sampling s' = need_min_p_sampling self.
Proof.
  unfold merge_batch.
  destruct self as [t p k m g n v lb vm am gr [o|] lp sp d]; run_method;
    destruct (merge_bias_tensor _ _ _ _ _ _); cbn; auto 10.
Qed.

(** C4.  [merge_batch] leaves in each of [temperatures], [top_ps],
    [top_ks] and [min_ps] the rows of [self] followed by the rows of
    [other], each side in its own order, and [is_all_greedy] becomes the
    conjunction of the two flags. *)
Theorem merge_batch_concatenates (self other : BatchInfo) :
  let merged := after (merge_batch other) self in
  temperatures merged = temperatures self ++ temperatures other ∧
  top_ps merged = top_ps self ++ top_ps other ∧
  top_ks merged = top_ks self ++ top_ks other ∧
  min_ps merged = min_ps self ++ min_ps other ∧
  is_all_greedy merged = is_all_greedy self && is_all_greedy other.
Proof.
  pose proof (merge_batch_after self other) as Hm. cbn in Hm. cbn.
  intuition.
Qed.

(** *** filter_batch *)

Lemma row_at_in_range {A} (t : Tensor A) (i : Z) :
  in_range (length t) i -> is_Some (row_at t i).
Proof.
  unfold in_range, row_at. intros Hi.
  destruct (0 <=? i)%Z eqn:E0; cbn.
  - apply Z.leb_le in E0.
    destruct (i <? Z.of_nat (length t))%Z eqn:E1; [|apply Z.ltb_ge in E1; lia].
    apply Z.ltb_lt in E1. apply lookup_lt_is_Some. lia.
  - apply Z.leb_gt in E0.
    destruct (- Z.of_nat (length t) <=? i)%Z eqn:E1;
      [|apply Z.leb_gt in E1; lia].
    destruct (i <? 0)%Z eqn:E2; [|apply Z.ltb_ge in E2; lia]. cbn.
    apply lookup_lt_is_Some. lia.
Qed.

Lemma index_rows_gathers {A} (t : Tensor A) (idx : list Z) :
  Forall (in_range (length t)) idx ->
  ∃ t', index_rows t idx = Ok t' ∧ gathered t idx t'.
Proof.
  unfold gathered. induction 1 as [|i idx Hi _ IH]; cbn.
  - eexists; split; [reflexivity|constructor].
  - destruct (row_at_in_range t i Hi) as [r Hr]. rewrite Hr.
    destruct IH as (rs & -> & Hrs). cbn.
    eexists; split; [reflexivity|]. by constructor.
Qed.

Lemma filter_batch_flags (unf new : list Z) (self : BatchInfo) :
  let s' := after (filter_batch unf new) self in
  need_min_p_sampling s' = need_min_p_sampling self ∧
  is_all_greedy s' = is_all_greedy self.
Proof.
  unfold filter_batch.
  destruct self as [t p k m g n v lb vm am gr o lp sp d]; run_method.
  destruct o; cbn;
    (destruct (index_rows t new); cbn; [|done]);
    (destruct (index_rows p new); cbn; [|done]);
    (destruct (index_rows k new); cbn; [|done]);
    (destruct (index_rows m new); cbn; [|done]);
    (destruct lb as [b|]; cbn; [|done]);
    destruct (index_rows (bias_rows b) new); done.
Qed.

(** C5.  On a row-aligned state of [n] rows and an index list that names
    rows of it, [filter_batch] runs to its end and every tracked per-row
    array ([temperatures], [top_ps], [top_ks], [min_ps], and the logit
    bias when there is one) holds afterwards, position by position, the
    rows the index list names: the order of the list is the new row
    order of all of them, and no other row is kept. *)
Theorem filter_batch_gathers (unf new : list Z) (self : BatchInfo) (n : nat) :
  aligned self n ->
  Forall (in_range n) new ->
  let s' := after (filter_batch unf new) self in
  completes (filter_batch unf new) self ∧
  gathered (temperatures self) new (temperatures s') ∧
  gathered (top_ps self) new (top_ps s') ∧
  gathered (top_ks self) new (top_ks s') ∧
  gathered (min_ps self) new (min_ps s') ∧
  match logit_bias self with
  | None => logit_bias s' = None
  | Some b =>
      ∃ b', logit_bias s' = Some b' ∧
            gathered (bias_rows b) new (bias_rows b') ∧
            bias_shape b' = bias_shape b
  end.
Proof.
  intros (Ht & Hp & Hk & Hm & Hb) Hnew. unfold filter_batch.
  destruct self as [t p k m g n' v lb vm am gr o lp sp d]; cbn in *.
  unfold len in *.
  destruct (index_rows_gathers t new) as (t' & Et & Gt); [by rewrite Ht|].
  destruct (index_rows_gathers p new) as (p' & Ep & Gp); [by rewrite Hp|].
  destruct (index_rows_gathers k new) as (k' & Ek & Gk); [by rewrite Hk|].
  destruct (index_rows_gathers m new) as (m' & Em & Gm); [by rewrite Hm|].
  destruct lb as [b|].
  - destruct (index_rows_gathers (bias_rows b) new) as (b' & Eb & Gb);
      [by rewrite (Hb b eq_refl)|].
    run_method. destruct o; cbn; rewrite Et; cbn; rewrite Ep; cbn;
      rewrite Ek; cbn; rewrite Em; cbn; rewrite Eb; cbn;
      (split; [by eexists|]); repeat (split; [done|]);
      eexists; repeat split; done.
  - run_method. destruct o; cbn; rewrite Et; cbn; rewrite Ep; cbn;
      rewrite Ek; cbn; rewrite Em; cbn;
      (split; [by eexists|]); repeat (split; [done|]); done.
Qed.

(** C10.  Neither [merge_batch] nor [filter_batch] assigns
    [need_min_p_sampling]: after a merge it is the flag [self] had
    before, also when [other] was built from a request with min_p > 0 and
    its rows are now part of [self]; and [filter_batch] leaves both
    [need_min_p_sampling] and [is_all_greedy] as they were. *)
Theorem flags_not_recomputed (self other : BatchInfo) (unf new : list Z) :
  need_min_p_sampling (after (merge_batch other) self)
    = need_min_p_sampling self ∧
  need_min_p_sampling (after (filter_batch unf new) self)
    = need_min_p_sampling self ∧
  is_all_greedy (after (filter_batch unf new) self) = is_all_greedy self ∧
  ∃ reqs reqs' : list SamplingParams,
    let s : BatchInfo := from_schedule_batch reqs "cuda" 2 true in
    let o : BatchInfo := from_schedule_batch reqs' "cuda" 2 true in
    need_min_p_sampling o = true ∧
    need_min_p_sampling (after (merge_batch o) s) = false ∧
    existsb Qpos (min_ps (after (merge_batch o) s)) = true.
Proof.
  pose proof (merge_batch_after self other) as Hm. cbn in Hm.
  pose proof (filter_batch_flags unf new self) as Hf. cbn in Hf.
  repeat split; try tauto.
  exists [(1, 1, 1%Z, 0)%Q], [(1, 1, 1%Z, 1 # 20)%Q].
  cbn. repeat split; reflexivity.
Qed.

(** *** update_penalties *)

Lemma update_penalties_unfold (self : BatchInfo) (orch : Orchestrator) :
  penalizer_orchestrator self = Some orch ->
  update_penalties self =
    set_linear_penalties
      (fold_left (penalty_step (batch_size orch) (vocab_size self))
         (penalizers orch) (None, None)).2
      (set_scaling_penalties
         (fold_left (penalty_step (batch_size orch) (vocab_size self))
            (penalizers orch) (None, None)).1
         self).
Proof.
  intros Ho. unfold update_penalties. rewrite Ho. cbn.
  destruct (fold_left _ _ _) as [sc li]. reflexivity.
Qed.

Lemma penalty_fold (bs vocab : nat) (ps : list Penalizer)
    (sc li : option PenaltyTensor) :
  fold_left (penalty_step bs vocab) ps (sc, li) =
  (match last (List.filter (fun p => is_prepared p && is_repetition p) ps) with
   | Some p => Some (cumulated_repetition_penalties p)
   | None => sc
   end,
   match List.filter (fun p => is_prepared p && negb (is_repetition p)) ps with
   | [] => li
   | lin => Some (apply_all lin (default (torch_zeros bs vocab) li))
   end).
Proof.
  revert sc li. induction ps as [|p ps IH]; intros sc li; [reflexivity|].
  cbn [fold_left List.filter]. unfold penalty_step at 2.
  destruct (is_prepared p); cbn [negb andb]; [|apply IH].
  destruct (is_repetition p); cbn [negb]; rewrite IH.
  - rewrite last_cons.
    by destruct (last (List.filter _ ps)).
  - f_equal.
    destruct (List.filter
                (fun p => is_prepared p && negb (is_repetition p)) ps);
      destruct li; reflexivity.
Qed.

(** C6.  With a penalizer orchestrator, [update_penalties] discards the
    buffers it finds and computes both anew from the penalizers as they
    are: the state it leaves is [self] with [scaling_penalties] set to
    the cumulated penalties of the last prepared repetition penalizer
    and [linear_penalties] set to the other prepared penalizers applied
    in order to a tensor of zeros, each absent when no prepared
    penalizer feeds it.  Hence whatever [linear_penalties] and
    [scaling_penalties] held before the call plays no part, and a
    second call with the penalizers unchanged leaves the same state. *)
Theorem update_penalties_recomputes (self : BatchInfo) (orch : Orchestrator) :
  penalizer_orchestrator self = Some orch ->
  let scaling :=
    cumulated_repetition_penalties <$> last (scaling_contributors orch) in
  let linear :=
    match linear_contributors orch with
    | [] => None
    | ps => Some (apply_all ps
                    (torch_zeros (batch_size orch) (vocab_size self)))
    end in
  update_penalties self
    = set_linear_penalties linear (set_scaling_penalties scaling self) ∧
  update_penalties (update_penalties self) = update_penalties self ∧
  ∀ stale_linear stale_scaling : option PenaltyTensor,
    update_penalties
      (set_linear_penalties stale_linear
         (set_scaling_penalties stale_scaling self))
    = update_penalties self.
Proof.
  intros Ho scaling linear.
  assert (Hnew : ∀ s0 : BatchInfo,
            penalizer_orchestrator s0 = Some orch ->
            vocab_size s0 = vocab_size self ->
            update_penalties s0
            = set_linear_penalties linear (set_scaling_penalties scaling s0)).
  { intros s0 Ho0 Hv. rewrite (update_penalties_unfold s0 orch Ho0).
    rewrite penalty_fold, Hv. cbn [fst snd]. subst scaling linear.
    unfold scaling_contributors, linear_contributors.
    destruct (last (List.filter (fun p => is_prepared p && is_repetition p)
                      (penalizers orch)));
      destruct (List.filter
                  (fun p => is_prepared p && negb (is_repetition p))
                  (penalizers orch));
      reflexivity. }
  split_and!.
  - by apply Hnew.
  - rewrite (Hnew self Ho eq_refl). by rewrite Hnew.
  - intros lin sc. rewrite (Hnew self Ho eq_refl). by rewrite Hnew.
Qed.

(** *** update_regex_vocab_mask *)

Lemma fill_loop_rows (i : nat) (gs : list (option G)) (mask : Tensor MaskRow) :
  fill_loop i gs mask = fill_rows (active_rows i gs) mask.
Proof.
  revert i mask. induction gs as [|[g|] gs IH]; intros i mask; cbn; auto.
Qed.

Lemma active_rows_lookup (i : nat) (gs : list (option G)) (j : nat) (g : G) :
  (j, g) ∈ active_rows i gs ↔ i <= j ∧ gs !! (j - i) = Some (Some g).
Proof.
  revert i. induction gs as [|[g0|] gs IH]; intros i; cbn.
  - rewrite elem_of_nil, lookup_nil. split; [intros []|intros [_ [=]]].
  - rewrite elem_of_cons, IH. split.
    + intros [Heq|[Hle Hl]].
      * inversion Heq; subst. rewrite Nat.sub_diag. split; [lia|done].
      * split; [lia|]. replace (j - i) with (S (j - S i)) by lia. done.
    + intros [Hle Hl]. destruct (decide (j = i)) as [->|Hne].
      * rewrite Nat.sub_diag in Hl. cbn in Hl. left. congruence.
      * right. split; [lia|].
        replace (j - i) with (S (j - S i)) in Hl by lia. done.
  - rewrite IH. split.
    + intros [Hle Hl]. split; [lia|].
      replace (j - i) with (S (j - S i)) by lia. done.
    + intros [Hle Hl]. destruct (decide (j = i)) as [->|Hne].
      * rewrite Nat.sub_diag in Hl. cbn in Hl. congruence.
      * split; [lia|].
        replace (j - i) with (S (j - S i)) in Hl by lia. done.
Qed.

Lemma any_grammar_active (i : nat) (gs : list (option G)) :
  any_grammar gs = false ↔ active_rows i gs = [].
Proof.
  revert i. induction gs as [|[g|] gs IH]; intros i; cbn; [done| |apply IH].
  split; discriminate.
Qed.

Lemma next_grammar_active (i : nat) (gs : list (option G)) :
  next_grammar gs = snd <$> head (active_rows i gs).
Proof.
  revert i. induction gs as [|[g|] gs IH]; intros i; cbn; auto.
Qed.

Lemma fill_rows_frame (rows : list (nat * G)) (mask : Tensor MaskRow) (j : nat) :
  (∀ g m i j, i ≠ j -> fill_vocab_mask g m i !! j = m !! j) ->
  (∀ g, (j, g) ∉ rows) ->
  fill_rows rows mask !! j = mask !! j.
Proof.
  intros Hframe. revert mask.
  induction rows as [|[i g] rows IH]; intros mask Hj; [done|].
  unfold fill_rows in *. cbn. rewrite IH.
  - cbn. apply Hframe. intros ->. apply (Hj g). left.
  - intros g' Hin. apply (Hj g'). by right.
Qed.

(** C7.  When no row carries a grammar object, [update_regex_vocab_mask]
    leaves [vocab_mask] and [apply_mask] absent.  Otherwise the mask is
    the one the first grammar object allocates for [len(temperatures)]
    rows and [vocab_size] tokens, on which [fill_vocab_mask] has been
    called for the rows that carry a grammar object and for no other;
    given that a fill touches its own row only and that the allocator
    returns a mask of the size asked for whose rows permit every token,
    each row without a grammar object is still the allocated,
    all-permitted row. *)
Theorem update_regex_vocab_mask_rows (all_permitted : MaskRow -> Prop)
    (self : BatchInfo) :
  (∀ g m i j, i ≠ j -> fill_vocab_mask g m i !! j = m !! j) ->
  (∀ g v b d, length (allocate_vocab_mask g v b d) = b) ->
  (∀ g v b d, Forall all_permitted (allocate_vocab_mask g v b d)) ->
  let s' := update_regex_vocab_mask self in
  (∀ i g, (i, g) ∈ constrained_rows self ↔
          ∃ gs, grammars self = Some gs ∧ gs !! i = Some (Some g)) ∧
  match constrained_rows self with
  | [] => vocab_mask s' = None ∧ apply_mask s' = None
  | (_, g) :: _ =>
      let mask0 :=
        allocate_vocab_mask g (vocab_size self) (len (temperatures self))
          (device self) in
      length mask0 = len (temperatures self) ∧
      apply_mask s' = Some (type_of g) ∧
      vocab_mask s' = Some (fill_rows (constrained_rows self) mask0) ∧
      ∀ i, i < len (temperatures self) ->
           (∀ g', (i, g') ∉ constrained_rows self) ->
           ∃ row, fill_rows (constrained_rows self) mask0 !! i = Some row ∧
                  mask0 !! i = Some row ∧ all_permitted row
  end.
Proof.
  intros Hframe Hlen Hperm. cbn. split.
  - intros i g. unfold constrained_rows. destruct (grammars self) as [gs|].
    + rewrite active_rows_lookup, Nat.sub_0_r. split.
      * intros [_ Hl]. by exists gs.
      * intros (gs' & [= <-] & Hl). split; [lia|done].
    + rewrite elem_of_nil. split; [intros []|intros (gs' & [=] & _)].
  - unfold update_regex_vocab_mask, constrained_rows.
    destruct (grammars self) as [gs|]; [|done].
    destruct (any_grammar gs) eqn:Hany; cbn.
    + rewrite (next_grammar_active 0).
      destruct (active_rows 0 gs) as [|[i0 g0] rows] eqn:Hrows.
      { apply (any_grammar_active 0) in Hrows. congruence. }
      cbn. rewrite fill_loop_rows, Hrows.
      repeat split; [apply Hlen|].
      intros i Hi Hnot. rewrite fill_rows_frame by done.
      destruct (lookup_lt_is_Some_2
                  (allocate_vocab_mask g0 (vocab_size self)
                     (len (temperatures self)) (device self)) i)
        as [row Hrow]; [by rewrite Hlen|].
      exists row. repeat split; [done..|].
      eapply Forall_lookup_1; [apply Hperm|exact Hrow].
    + apply (any_grammar_active 0) in Hany. rewrite Hany. done.
Qed.

(** *** Further properties of filter_batch *)

Lemma row_at_Some_in_range {A} (t : Tensor A) (i : Z) (r : A) :
  row_at t i = Some r -> in_range (length t) i.
Proof.
  unfold row_at, in_range. intros Hr.
  destruct (0 <=? i)%Z eqn:E0; destruct (i <? Z.of_nat (length t))%Z eqn:E1;
    destruct (- Z.of_nat (length t) <=? i)%Z eqn:E2;
    destruct (i <? 0)%Z eqn:E3; cbn in Hr; try discriminate Hr;
    try apply Z.leb_le in E0; try apply Z.leb_gt in E0;
    try apply Z.ltb_lt in E1; try apply Z.ltb_ge in E1;
    try apply Z.leb_le in E2; try apply Z.leb_gt in E2;
    try apply Z.ltb_lt in E3; try apply Z.ltb_ge in E3; lia.
Qed.

Lemma index_rows_out_of_range {A} (t : Tensor A) (idx : list Z) :
  ¬ Forall (in_range (length t)) idx -> index_rows t idx = Raise IndexError.
Proof.
  induction idx as [|i idx IH]; intros Hnot; cbn.
  - destruct Hnot. constructor.
  - destruct (row_at t i) as [r|] eqn:Hr; [|reflexivity].
    rewrite IH; [reflexivity|]. intros Hall. apply Hnot.
    constructor; [by eapply row_at_Some_in_range|done].
Qed.

Lemma index_rows_Ok_gathered {A} (t : Tensor A) (idx : list Z) (t' : Tensor A) :
  index_rows t idx = Ok t' -> gathered t idx t'.
Proof.
  unfold gathered. revert t'. induction idx as [|i idx IH]; intros t'; cbn.
  - intros [= <-]. constructor.
  - destruct (row_at t i) as [r|] eqn:Hr; [|discriminate].
    destruct (index_rows t idx) as [rs|]; cbn; [|discriminate].
    intros [= <-]. constructor; auto.
Qed.

Lemma index_rows_length {A} (t : Tensor A) (idx : list Z) (t' : Tensor A) :
  index_rows t idx = Ok t' -> length t' = length idx.
Proof.
  intros Hok. symmetry. eapply Forall2_length.
  by apply index_rows_Ok_gathered.
Qed.

(** What [filter_batch] leaves when every array can be indexed. *)
Lemma filter_batch_run (unf new : list Z) (self : BatchInfo)
    (t' p' m' : Tensor Q) (k' : Tensor Z) (b' : option BiasTensor) :
  index_rows (temperatures self) new = Ok t' ->
  index_rows (top_ps self) new = Ok p' ->
  index_rows (top_ks self) new = Ok k' ->
  index_rows (min_ps self) new = Ok m' ->
  index_bias (logit_bias self) new = Ok b' ->
  let s' := after (filter_batch unf new) self in
  completes (filter_batch unf new) self ∧
  temperatures s' = t' ∧ top_ps s' = p' ∧ top_ks s' = k' ∧ min_ps s' = m' ∧
  logit_bias s' = b'.
Proof.
  intros Et Ep Ek Em Eb. unfold filter_batch.
  destruct self as [t p k m g n' v lb vm am gr o lp sp d]; cbn in *.
  destruct lb as [b|]; unfold index_bias in Eb.
  - destruct (index_rows (bias_rows b) new) as [rows|] eqn:Er;
      unfold mbind, result_bind in Eb; cbn in Eb;
      [injection Eb as <-|discriminate Eb].
    run_method.
    destruct o; cbn; rewrite Et; cbn; rewrite Ep; cbn; rewrite Ek; cbn;
      rewrite Em; cbn; rewrite Er; cbn;
      (split; [by eexists|]); repeat split.
  - injection Eb as <-. run_method.
    destruct o; cbn; rewrite Et; cbn; rewrite Ep; cbn; rewrite Ek; cbn;
      rewrite Em; cbn; (split; [by eexists|]); repeat split.
Qed.

Lemma index_bias_in_range (value : option BiasTensor) (new : list Z) (n : nat) :
  (∀ b, value = Some b -> len (bias_rows b) = n) ->
  Forall (in_range n) new ->
  ∃ b', index_bias value new = Ok b' ∧
        ∀ b, b' = Some b -> len (bias_rows b) = length new.
Proof.
  intros Hb Hnew. destruct value as [b|]; unfold index_bias.
  - destruct (index_rows_gathers (bias_rows b) new) as (rows & Hr & _).
    { unfold len in Hb. by rewrite (Hb b eq_refl). }
    rewrite Hr. unfold mbind, result_bind. eexists. split; [reflexivity|].
    intros b0 [= <-]. cbn. by eapply index_rows_length.
  - eexists. split; [reflexivity|]. intros b0 [=].
Qed.

(** X8.  [filter_batch] keeps the rows aligned: on a row-aligned state
    and indices that name rows of it, it runs to its end and leaves a
    row-aligned state with one row per index. *)
Theorem filter_batch_keeps_alignment (unf new : list Z) (self : BatchInfo)
    (n : nat) :
  aligned self n ->
  Forall (in_range n) new ->
  completes (filter_batch unf new) self ∧
  aligned (after (filter_batch unf new) self) (length new).
Proof.
  intros (Ht & Hp & Hk & Hm & Hb) Hnew. unfold len in *.
  destruct (index_rows_gathers (temperatures self) new) as (t' & Et & _);
    [by rewrite Ht|].
  destruct (index_rows_gathers (top_ps self) new) as (p' & Ep & _);
    [by rewrite Hp|].
  destruct (index_rows_gathers (top_ks self) new) as (k' & Ek & _);
    [by rewrite Hk|].
  destruct (index_rows_gathers (min_ps self) new) as (m' & Em & _);
    [by rewrite Hm|].
  destruct (index_bias_in_range (logit_bias self) new n Hb Hnew)
    as (b' & Eb & Hb').
  destruct (filter_batch_run unf new self _ _ _ _ _ Et Ep Ek Em Eb)
    as (Hc & H1 & H2 & H3 & H4 & H5).
  split; [exact Hc|]. unfold aligned, len. rewrite H1, H2, H3, H4, H5.
  split_and!; try (by eapply index_rows_length). exact Hb'.
Qed.

(** X9.  An index out of range: on a row-aligned state, [filter_batch]
    raises IndexError and leaves the five arrays as they were, but the
    penalizer orchestrator has been filtered already. *)
Theorem filter_batch_out_of_range (unf new : list Z) (self : BatchInfo)
    (n : nat) :
  aligned self n ->
  ¬ Forall (in_range n) new ->
  let s' := after (filter_batch unf new) self in
  (filter_batch unf new self).2 = Raise IndexError ∧
  same_rows self s' ∧
  penalizer_orchestrator s'
    = orch_filter unf new <$> penalizer_orchestrator self.
Proof.
  intros (Ht & _) Hnew. unfold len in Ht.
  assert (Et : index_rows (temperatures self) new = Raise IndexError).
  { apply index_rows_out_of_range. by rewrite Ht. }
  unfold filter_batch, same_rows.
  destruct self as [t p k m g n' v lb vm am gr o lp sp d]; cbn in *.
  run_method. destruct o; cbn; rewrite Et; cbn; repeat split.
Qed.

Lemma index_rows_cons {A} (t : Tensor A) (i : Z) (rest : list Z) :
  index_rows t (i :: rest)
  = match row_at t i with
    | None => Raise IndexError
    | Some r => rs ← index_rows t rest; Ok (r :: rs)
    end.
Proof. reflexivity. Qed.

Lemma row_at_nat {A} (t : Tensor A) (k : nat) :
  k < length t -> row_at t (Z.of_nat k) = t !! k.
Proof.
  intros Hk. unfold row_at.
  destruct (0 <=? Z.of_nat k)%Z eqn:E0; [|apply Z.leb_gt in E0; lia].
  destruct (Z.of_nat k <? Z.of_nat (length t))%Z eqn:E1;
    [|apply Z.ltb_ge in E1; lia].
  cbn. by rewrite Nat2Z.id.
Qed.

Lemma index_rows_arange {A} (t : Tensor A) (k m : nat) :
  k + m <= length t ->
  index_rows t (arange k m) = Ok (take m (drop k t)).
Proof.
  unfold arange. revert k. induction m as [|m IH]; intros k Hk.
  - reflexivity.
  - change (Z.of_nat <$> seq k (S m))
      with (Z.of_nat k :: (Z.of_nat <$> seq (S k) m)).
    destruct (lookup_lt_is_Some_2 t k) as [x Hx]; [lia|].
    assert (Hrow : row_at t (Z.of_nat k) = Some x)
      by (rewrite row_at_nat by lia; exact Hx).
    rewrite index_rows_cons, Hrow, IH by lia. unfold mbind, result_bind.
    rewrite (drop_S _ _ _ Hx). reflexivity.
Qed.

Lemma index_rows_all {A} (t : Tensor A) :
  index_rows t (arange 0 (length t)) = Ok t.
Proof.
  rewrite index_rows_arange by lia. rewrite drop_0, firstn_all. reflexivity.
Qed.

(** X10.  Keeping every row in place is the identity: [filter_batch]
    with the indices 0, ..., n-1 of a row-aligned state of [n] rows runs
    to its end and leaves the five arrays as they were. *)
Theorem filter_batch_all_rows (unf : list Z) (self : BatchInfo) (n : nat) :
  aligned self n ->
  completes (filter_batch unf (arange 0 n)) self ∧
  same_rows self (after (filter_batch unf (arange 0 n)) self).
Proof.
  intros (Ht & Hp & Hk & Hm & Hb). unfold len in *.
  assert (Eb : index_bias (logit_bias self) (arange 0 n)
               = Ok (logit_bias self)).
  { destruct (logit_bias self) as [b|] eqn:Hlb; [|reflexivity].
    unfold index_bias. rewrite <- (Hb b eq_refl), index_rows_all.
    unfold mbind, result_bind. by destruct b. }
  assert (Et : index_rows (temperatures self) (arange 0 n)
               = Ok (temperatures self))
    by (rewrite <- Ht; apply index_rows_all).
  assert (Ep : index_rows (top_ps self) (arange 0 n) = Ok (top_ps self))
    by (rewrite <- Hp; apply index_rows_all).
  assert (Ek : index_rows (top_ks self) (arange 0 n) = Ok (top_ks self))
    by (rewrite <- Hk; apply index_rows_all).
  assert (Em : index_rows (min_ps self) (arange 0 n) = Ok (min_ps self))
    by (rewrite <- Hm; apply index_rows_all).
  destruct (filter_batch_run unf (arange 0 n) self _ _ _ _ _ Et Ep Ek Em Eb)
    as (Hc & H1 & H2 & H3 & H4 & H5).
  split; [exact Hc|]. unfold same_rows. by rewrite H1, H2, H3, H4, H5.
Qed.

Lemma gathered_row_at {A} (t : Tensor A) (idx : list Z) (t' : Tensor A)
    (j i : Z) :
  gathered t idx t' ->
  row_at idx j = Some i ->
  ∃ r, row_at t' j = Some r ∧ row_at t i = Some r.
Proof.
  intros Hg Hj. pose proof (Forall2_length _ _ _ Hg) as Hlen.
  assert (Hk : ∀ k, idx !! k = Some i ->
                    ∃ r, t' !! k = Some r ∧ row_at t i = Some r).
  { intros k Hk. by eapply Forall2_lookup_l in Hg. }
  revert Hj. unfold row_at at 1 2. rewrite <- Hlen.
  destruct (_ && _); [by apply Hk|].
  destruct (_ && _); [by apply Hk|discriminate].
Qed.

(** Indexing twice is indexing once with the indices picked by the
    second index tensor from the first. *)
Lemma index_rows_compose {A} (t : Tensor A) (idx1 idx2 idx12 : list Z)
    (t1 : Tensor A) :
  index_rows t idx1 = Ok t1 ->
  index_rows idx1 idx2 = Ok idx12 ->
  index_rows t1 idx2 = index_rows t idx12.
Proof.
  intros H1. apply index_rows_Ok_gathered in H1.
  revert idx12. induction idx2 as [|j idx2 IH]; intros idx12; cbn.
  - by intros [= <-].
  - destruct (row_at idx1 j) as [i|] eqn:Hj; [|discriminate].
    destruct (index_rows idx1 idx2) as [rest|]; cbn; [|discriminate].
    intros [= <-].
    destruct (gathered_row_at _ _ _ _ _ H1 Hj) as (r & Hr1 & Hr).
    rewrite Hr1, index_rows_cons, Hr, (IH rest eq_refl). reflexivity.
Qed.

Lemma index_bias_compose (value b1 : option BiasTensor)
    (idx1 idx2 idx12 : list Z) :
  index_bias value idx1 = Ok b1 ->
  index_rows idx1 idx2 = Ok idx12 ->
  index_bias b1 idx2 = index_bias value idx12.
Proof.
  intros H1 H12. destruct value as [b|]; cbn in H1.
  - destruct (index_rows (bias_rows b) idx1) as [rows|] eqn:Hr;
      unfold mbind, result_bind in H1; [|discriminate].
    injection H1 as <-. cbn.
    by rewrite (index_rows_compose _ _ _ _ _ Hr H12).
  - by injection H1 as <-.
Qed.

(** X11.  Two calls of [filter_batch] in a row leave the rows of one
    call whose index tensor is the first one indexed by the second. *)
Theorem filter_batch_composes (unf1 unf2 unf new1 new2 : list Z)
    (self : BatchInfo) (n : nat) :
  aligned self n ->
  Forall (in_range n) new1 ->
  Forall (in_range (length new1)) new2 ->
  ∃ new12,
    index_rows new1 new2 = Ok new12 ∧
    completes (filter_batch unf1 new1) self ∧
    completes (filter_batch unf2 new2) (after (filter_batch unf1 new1) self) ∧
    completes (filter_batch unf new12) self ∧
    same_rows
      (after (filter_batch unf2 new2) (after (filter_batch unf1 new1) self))
      (after (filter_batch unf new12) self).
Proof.
  intros (Ht & Hp & Hk & Hm & Hb) Hnew1 Hnew2. unfold len in *.
  destruct (index_rows_gathers new1 new2 Hnew2) as (new12 & E12 & _).
  exists new12. split; [exact E12|].
  destruct (index_rows_gathers (temperatures self) new1) as (t1 & Et & _);
    [by rewrite Ht|].
  destruct (index_rows_gathers (top_ps self) new1) as (p1 & Ep & _);
    [by rewrite Hp|].
  destruct (index_rows_gathers (top_ks self) new1) as (k1 & Ek & _);
    [by rewrite Hk|].
  destruct (index_rows_gathers (min_ps self) new1) as (m1 & Em & _);
    [by rewrite Hm|].
  destruct (index_bias_in_range (logit_bias self) new1 n Hb Hnew1)
    as (b1 & Eb & Hb1).
  destruct (filter_batch_run unf1 new1 self _ _ _ _ _ Et Ep Ek Em Eb)
    as (Hc1 & H1 & H2 & H3 & H4 & H5).
  destruct (index_rows_gathers t1 new2) as (t2 & Et2 & _);
    [by rewrite (index_rows_length _ _ _ Et)|].
  destruct (index_rows_gathers p1 new2) as (p2 & Ep2 & _);
    [by rewrite (index_rows_length _ _ _ Ep)|].
  destruct (index_rows_gathers k1 new2) as (k2 & Ek2 & _);
    [by rewrite (index_rows_length _ _ _ Ek)|].
  destruct (index_rows_gathers m1 new2) as (m2 & Em2 & _);
    [by rewrite (index_rows_length _ _ _ Em)|].
  destruct (index_bias_in_range b1 new2 (length new1) Hb1 Hnew2)
    as (b2 & Eb2 & _).
  destruct (filter_batch_run unf2 new2 (after (filter_batch unf1 new1) self)
              t2 p2 m2 k2 b2)
    as (Hc2 & G1 & G2 & G3 & G4 & G5);
    [by rewrite H1|by rewrite H2|by rewrite H3|by rewrite H4|by rewrite H5|].
  rewrite (index_rows_compose _ _ _ _ _ Et E12) in Et2.
  rewrite (index_rows_compose _ _ _ _ _ Ep E12) in Ep2.
  rewrite (index_rows_compose _ _ _ _ _ Ek E12) in Ek2.
  rewrite (index_rows_compose _ _ _ _ _ Em E12) in Em2.
  rewrite (index_bias_compose _ _ _ _ _ Eb E12) in Eb2.
  destruct (filter_batch_run unf new12 self _ _ _ _ _ Et2 Ep2 Ek2 Em2 Eb2)
    as (Hc & F1 & F2 & F3 & F4 & F5).
  split_and!; [exact Hc1|exact Hc2|exact Hc|].
  unfold same_rows. by rewrite G1, G2, G3, G4, G5, F1, F2, F3, F4, F5.
Qed.

(** *** Further properties of merge_batch *)

(** How [merge_batch] ends, by the outcome of [merge_bias_tensor]. *)
Lemma merge_batch_run (self other : BatchInfo) :
  let s' := after (merge_batch other) self in
  match merge_bias_tensor (logit_bias self) (logit_bias other)
          (length (temperatures self ++ temperatures other))
          (info_len other) (device self) 0%Q with
  | Ok b' => (merge_batch other self).2 = Ok tt ∧ logit_bias s' = b'
  | Raise e =>
      (merge_batch other self).2 = Raise e ∧ logit_bias s' = logit_bias self
  end.
Proof.
  unfold merge_batch.
  destruct self as [t p k m g n v lb vm am gr [o|] lp sp d]; run_method;
    unfold info_len, len, torch_concat; cbn;
    destruct (merge_bias_tensor _ _ _ _ _ _); cbn; auto.
Qed.

(** [merge_bias_tensor] returns only when there is nothing to merge. *)
Lemma merge_bias_tensor_outcome (lhs rhs : option BiasTensor) (bs1 bs2 : nat)
    (dev : string) (default : Q) :
  merge_bias_tensor lhs rhs bs1 bs2 dev default
  = match lhs, rhs with
    | None, None => Ok None
    | _, _ => Raise TypeError
    end.
Proof. destruct lhs, rhs; reflexivity. Qed.

(** X12.  [merge_batch] runs to its end exactly when neither batch holds
    a logit bias, and it then keeps the rows aligned: two such
    row-aligned states merge into a row-aligned state with the rows of
    both and no logit bias. *)
Theorem merge_batch_keeps_alignment (self other : BatchInfo) (n m : nat) :
  aligned self n ->
  aligned other m ->
  (completes (merge_batch other) self
   ↔ logit_bias self = None ∧ logit_bias other = None) ∧
  (logit_bias self = None -> logit_bias other = None ->
   aligned (after (merge_batch other) self) (n + m) ∧
   logit_bias (after (merge_batch other) self) = None).
Proof.
  intros (Ht & Hp & Hk & Hm & _) (Ht' & Hp' & Hk' & Hm' & _).
  destruct (merge_batch_after self other) as (E1 & E2 & E3 & E4 & _).
  pose proof (merge_batch_run self other) as Hrun. cbn zeta in Hrun.
  rewrite merge_bias_tensor_outcome in Hrun. split.
  - unfold completes.
    destruct (logit_bias self), (logit_bias other);
      destruct Hrun as [Hr _]; rewrite Hr;
      (split; [intros [a Ha]; discriminate Ha|intros [? ?]; discriminate])
      || (split; [done|by exists tt]).
  - intros Hs Ho. rewrite Hs, Ho in Hrun. destruct Hrun as [_ Hlb].
    split; [|exact Hlb].
    unfold aligned, len in *. rewrite E1, E2, E3, E4, Hlb, !length_app.
    split_and!; try lia. intros b Hb. discriminate Hb.
Qed.

(** X13.  A logit bias on either side: [merge_batch] raises TypeError
    from [merge_bias_tensor] when the four parameter arrays and
    [is_all_greedy] are assigned already, and the logit bias of [self]
    is the one it had.  A row-aligned [self] that holds a logit bias is
    thereby left with more rows in its parameter arrays than in its
    logit bias as soon as [other] has a row. *)
Theorem merge_batch_bias_raises (self other : BatchInfo) :
  is_Some (logit_bias self) ∨ is_Some (logit_bias other) ->
  let s' := after (merge_batch other) self in
  (merge_batch other self).2 = Raise TypeError ∧
  temperatures s' = temperatures self ++ temperatures other ∧
  top_ps s' = top_ps self ++ top_ps other ∧
  top_ks s' = top_ks self ++ top_ks other ∧
  min_ps s' = min_ps self ++ min_ps other ∧
  is_all_greedy s' = is_all_greedy self && is_all_greedy other ∧
  logit_bias s' = logit_bias self ∧
  ∀ n, aligned self n -> is_Some (logit_bias self) -> 0 < info_len other ->
       ∀ k, ¬ aligned s' k.
Proof.
  intros Hbias.
  destruct (merge_batch_after self other) as (E1 & E2 & E3 & E4 & E5 & _).
  pose proof (merge_batch_run self other) as Hrun. cbn zeta in Hrun.
  rewrite merge_bias_tensor_outcome in Hrun.
  assert (Hraise : (merge_batch other self).2 = Raise TypeError ∧
                   logit_bias (after (merge_batch other) self)
                   = logit_bias self).
  { destruct (logit_bias self), (logit_bias other); try exact Hrun.
    destruct Hbias as [[? [=]]|[? [=]]]. }
  destruct Hraise as [Hr Hlb]. cbn zeta.
  split_and!; try done.
  intros n (Ht & _ & _ & _ & Hb) [b Hsome] Hpos k (Ht' & _ & _ & _ & Hb').
  unfold info_len, len in *. rewrite E1, length_app in Ht'.
  rewrite Hlb in Hb'. pose proof (Hb b Hsome). pose proof (Hb' b Hsome). lia.
Qed.

(** X14.  Merging two batches without logit bias and then keeping the
    first [n] rows gives the per-row arrays of [self] back, and keeping
    the rows after them gives those of [other] back. *)
Theorem merge_then_filter_recovers (unf : list Z) (self other : BatchInfo)
    (n m : nat) :
  aligned self n ->
  aligned other m ->
  logit_bias self = None ->
  logit_bias other = None ->
  let merged := after (merge_batch other) self in
  (merge_batch other self).2 = Ok tt ∧
  completes (filter_batch unf (arange 0 n)) merged ∧
  same_rows self (after (filter_batch unf (arange 0 n)) merged) ∧
  completes (filter_batch unf (arange n m)) merged ∧
  same_rows other (after (filter_batch unf (arange n m)) merged).
Proof.
  intros (Ht & Hp & Hk & Hm & _) (Ht' & Hp' & Hk' & Hm' & _) Hs Ho merged.
  destruct (merge_batch_after self other) as (E1 & E2 & E3 & E4 & _).
  fold merged in E1, E2, E3, E4.
  pose proof (merge_batch_run self other) as Hrun. cbn zeta in Hrun.
  rewrite merge_bias_tensor_outcome, Hs, Ho in Hrun.
  destruct Hrun as [Hok Hlb]. fold merged in Hlb. unfold len in *.
  assert (Hfst : ∀ A (a b : Tensor A), length a = n ->
            index_rows (a ++ b) (arange 0 n) = Ok a).
  { intros A a b Ha. rewrite index_rows_arange by (rewrite length_app; lia).
    rewrite drop_0. by rewrite take_app_length'. }
  assert (Hsnd : ∀ A (a b : Tensor A), length a = n -> length b = m ->
            index_rows (a ++ b) (arange n m) = Ok b).
  { intros A a b Ha Hb0. rewrite index_rows_arange by (rewrite length_app; lia).
    rewrite drop_app_length' by done. by rewrite <- Hb0, firstn_all. }
  destruct (filter_batch_run unf (arange 0 n) merged
              (temperatures self) (top_ps self) (min_ps self) (top_ks self)
              None)
    as (Hc1 & F1 & F2 & F3 & F4 & F5);
    [rewrite E1; by apply Hfst|rewrite E2; by apply Hfst
    |rewrite E3; by apply Hfst|rewrite E4; by apply Hfst|by rewrite Hlb|].
  destruct (filter_batch_run unf (arange n m) merged
              (temperatures other) (top_ps other) (min_ps other)
              (top_ks other) None)
    as (Hc2 & G1 & G2 & G3 & G4 & G5);
    [rewrite E1; by apply Hsnd|rewrite E2; by apply Hsnd
    |rewrite E3; by apply Hsnd|rewrite E4; by apply Hsnd|by rewrite Hlb|].
  split_and!; [exact Hok|exact Hc1| |exact Hc2|].
  - unfold same_rows. by rewrite F1, F2, F3, F4, F5, Hs.
  - unfold same_rows. by rewrite G1, G2, G3, G4, G5, Ho.
Qed.

(** X15.  Merging is associative on what it computes: the four parameter
    arrays and [is_all_greedy] do not depend on how three batches are
    grouped, and [need_min_p_sampling] is the one of the first batch
    either way. *)
Theorem merge_batch_assoc (a b c : BatchInfo) :
  let ab_c := after (merge_batch c) (after (merge_batch b) a) in
  let a_bc := after (merge_batch (after (merge_batch c) b)) a in
  same_params ab_c a_bc ∧
  is_all_greedy ab_c = is_all_greedy a_bc ∧
  need_min_p_sampling ab_c = need_min_p_sampling a ∧
  need_min_p_sampling a_bc = need_min_p_sampling a.
Proof.
  cbn.
  destruct (merge_batch_after a b) as (A1 & A2 & A3 & A4 & A5 & A6).
  destruct (merge_batch_after (after (merge_batch b) a) c)
    as (B1 & B2 & B3 & B4 & B5 & B6).
  destruct (merge_batch_after b c) as (C1 & C2 & C3 & C4 & C5 & _).
  destruct (merge_batch_after a (after (merge_batch c) b))
    as (D1 & D2 & D3 & D4 & D5 & D6).
  unfold same_params.
  rewrite B1, B2, B3, B4, B5, B6, D1, D2, D3, D4, D5, D6.
  rewrite A1, A2, A3, A4, A5, A6, C1, C2, C3, C4, C5.
  rewrite <- !(assoc_L (++)), <- andb_assoc. done.
Qed.

(** X16.  [merge_batch] and [filter_batch] assign the five per-row
    arrays, [is_all_greedy] and the orchestrator, and nothing else: the
    vocabulary mask, the grammar list and the penalty buffers still have
    the rows they had before the call. *)
Theorem row_methods_leave_buffers (self other : BatchInfo)
    (unf new : list Z) :
  same_buffers self (after (merge_batch other) self) ∧
  same_buffers self (after (filter_batch unf new) self).
Proof.
  unfold same_buffers, merge_batch, filter_batch.
  destruct self as [t p k m g n v lb vm am gr o lp sp d]; run_method. split.
  - destruct o; cbn; destruct (merge_bias_tensor _ _ _ _ _ _); cbn; done.
  - destruct o; cbn;
      (destruct (index_rows t new); cbn; [|done]);
      (destruct (index_rows p new); cbn; [|done]);
      (destruct (index_rows k new); cbn; [|done]);
      (destruct (index_rows m new); cbn; [|done]);
      (destruct lb as [b|]; cbn; [|done]);
      destruct (index_rows (bias_rows b) new); done.
Qed.

(** *** from_schedule_batch and the states made from it *)

Lemma from_schedule_batch_fields (reqs : list SamplingParams) (dev : string)
    (vocab : nat) (disable : bool) :
  let s : BatchInfo := from_schedule_batch reqs dev vocab disable in
  temperatures s = map sp_temperature reqs ∧
  top_ps s = map sp_top_p reqs ∧
  top_ks s = map sp_top_k reqs ∧
  min_ps s = map sp_min_p reqs ∧
  is_all_greedy s = forallb (fun r => (sp_top_k r <=? 1)%Z) reqs ∧
  need_min_p_sampling s = existsb (fun r => Qpos (sp_min_p r)) reqs ∧
  logit_bias s = None.
Proof. destruct disable; cbn; auto 10. Qed.

(** X17.  Building one batch from the requests of two is merging the
    batches built from each, as far as the per-row arrays and
    [is_all_greedy] go; [need_min_p_sampling] of the batch built at once
    is the disjunction of the two flags, of which the merge keeps the
    first. *)
Theorem from_schedule_batch_app (r1 r2 : list SamplingParams)
    (dev dev2 : string) (vocab vocab2 : nat) (disable disable2 : bool) :
  let whole : BatchInfo := from_schedule_batch (r1 ++ r2) dev vocab disable in
  let part1 : BatchInfo := from_schedule_batch r1 dev vocab disable in
  let part2 : BatchInfo := from_schedule_batch r2 dev2 vocab2 disable2 in
  let merged := after (merge_batch part2) part1 in
  (merge_batch part2 part1).2 = Ok tt ∧
  same_rows whole merged ∧
  is_all_greedy whole = is_all_greedy merged ∧
  need_min_p_sampling whole
    = need_min_p_sampling merged || need_min_p_sampling part2.
Proof.
  intros whole part1 part2 merged.
  destruct (from_schedule_batch_fields (r1 ++ r2) dev vocab disable)
    as (W1 & W2 & W3 & W4 & W5 & W6 & W7).
  destruct (from_schedule_batch_fields r1 dev vocab disable)
    as (A1 & A2 & A3 & A4 & A5 & A6 & A7).
  destruct (from_schedule_batch_fields r2 dev2 vocab2 disable2)
    as (B1 & B2 & B3 & B4 & B5 & B6 & B7).
  destruct (merge_batch_after part1 part2) as (E1 & E2 & E3 & E4 & E5 & E6).
  pose proof (merge_batch_run part1 part2) as Hrun. cbn zeta in Hrun.
  fold whole in W1, W2, W3, W4, W5, W6, W7.
  fold part1 in A1, A2, A3, A4, A5, A6, A7.
  fold part2 in B1, B2, B3, B4, B5, B6, B7.
  fold merged in E1, E2, E3, E4, E5, E6.
  rewrite A7, B7 in Hrun. cbn in Hrun. destruct Hrun as [Hok Hlb].
  fold merged in Hlb.
  split; [exact Hok|]. unfold same_rows.
  rewrite W1, W2, W3, W4, W5, W6, W7, E1, E2, E3, E4, E5, E6, Hlb.
  rewrite A1, A2, A3, A4, A5, A6, B1, B2, B3, B4, B5, B6.
  rewrite !map_app, forallb_app, existsb_app. done.
Qed.

Lemma row_at_elem_of {A} (t : Tensor A) (i : Z) (r : A) :
  row_at t i = Some r -> r ∈ t.
Proof.
  unfold row_at. destruct (_ && _); [apply list_elem_of_lookup_2|].
  destruct (_ && _); [apply list_elem_of_lookup_2|discriminate].
Qed.

Lemma gathered_Forall {A} (P : A -> Prop) (t : Tensor A) (idx : list Z)
    (t' : Tensor A) :
  gathered t idx t' -> Forall P t -> Forall P t'.
Proof.
  intros Hg HP. induction Hg as [|i r idx t' Hr _ IH]; constructor; [|exact IH].
  eapply Forall_forall; [exact HP|]. by eapply row_at_elem_of.
Qed.

Lemma well_formed_same (s s' : BatchInfo) :
  well_formed s ->
  same_rows s s' ->
  is_all_greedy s' = is_all_greedy s ->
  well_formed s'.
Proof.
  unfold well_formed, aligned, greedy_sound, info_len, same_rows.
  intros (Ha & Hb & Hg) (E1 & E2 & E3 & E4 & E5) Eg.
  rewrite <- E1, <- E2, <- E3, <- E4, <- E5, Eg. done.
Qed.

Lemma update_penalties_frame (self : BatchInfo) :
  same_rows self (update_penalties self) ∧
  is_all_greedy (update_penalties self) = is_all_greedy self.
Proof.
  destruct (penalizer_orchestrator self) as [orch|] eqn:Ho.
  - rewrite (update_penalties_unfold self orch Ho). by unfold same_rows.
  - unfold update_penalties. rewrite Ho. by unfold same_rows.
Qed.

Lemma update_regex_vocab_mask_frame (self : BatchInfo) :
  same_rows self (update_regex_vocab_mask self) ∧
  is_all_greedy (update_regex_vocab_mask self) = is_all_greedy self.
Proof.
  unfold update_regex_vocab_mask, same_rows.
  destruct (grammars self) as [gs|]; [|done].
  destruct (negb (any_grammar gs)); [done|].
  destruct (next_grammar gs); done.
Qed.

Lemma derived_well_formed (s : BatchInfo) : derived s -> well_formed s.
Proof.
  induction 1 as [reqs dev vocab disable
                 |self other _ IHs _ IHo
                 |self unf new _ IH Hnew
                 |self _ IH
                 |self gs _ IH
                 |self _ IH].
  - destruct (from_schedule_batch_fields reqs dev vocab disable)
      as (W1 & W2 & W3 & W4 & W5 & _ & W7).
    unfold well_formed, aligned, greedy_sound, info_len, len.
    rewrite W1, W2, W3, W4, W5, W7, !length_map.
    split_and!; try done. intros Hall.
    apply Forall_fmap, Forall_forall. intros r Hr. cbn.
    apply Z.leb_le. eapply forallb_forall in Hall; [exact Hall|].
    by apply list_elem_of_In.
  - destruct IHs as ((_ & Hp & Hk & Hm & _) & Hb & Hg).
    destruct IHo as ((_ & Hp' & Hk' & Hm' & _) & Hb' & Hg').
    destruct (merge_batch_after self other) as (E1 & E2 & E3 & E4 & E5 & _).
    pose proof (merge_batch_run self other) as Hrun. cbn zeta in Hrun.
    rewrite Hb, Hb' in Hrun. cbn in Hrun. destruct Hrun as [_ Hlb].
    unfold well_formed, aligned, greedy_sound, info_len, len in *.
    rewrite E1, E2, E3, E4, E5, Hlb, !length_app.
    split_and!; try done; try lia.
    intros [Hs Ho]%andb_prop. apply Forall_app. auto.
  - destruct (filter_batch_flags unf new self) as [_ Eg]. cbn zeta in Eg.
    destruct IH as ((_ & Hp & Hk & Hm & _) & Hb & Hg).
    unfold info_len, len in *.
    destruct (index_rows_gathers (temperatures self) new) as (t' & Et & _);
      [done|].
    destruct (index_rows_gathers (top_ps self) new) as (p' & Ep & _);
      [by rewrite Hp|].
    destruct (index_rows_gathers (top_ks self) new) as (k' & Ek & Gk);
      [by rewrite Hk|].
    destruct (index_rows_gathers (min_ps self) new) as (m' & Em & _);
      [by rewrite Hm|].
    destruct (filter_batch_run unf new self t' p' m' k' None)
      as (_ & H1 & H2 & H3 & H4 & H5); [done..|by rewrite Hb|].
    unfold well_formed, aligned, greedy_sound, info_len, len.
    rewrite H1, H2, H3, H4, H5, Eg.
    rewrite (index_rows_length _ _ _ Et), (index_rows_length _ _ _ Ep),
      (index_rows_length _ _ _ Ek), (index_rows_length _ _ _ Em).
    split_and!; try done. intros Hgr. eapply gathered_Forall; eauto.
  - destruct (update_penalties_frame self) as [Hs Eg].
    by eapply well_formed_same.
  - eapply well_formed_same; [exact IH| |]; by unfold same_rows.
  - destruct (update_regex_vocab_mask_frame self) as [Hs Eg].
    by eapply well_formed_same.
Qed.

(** X18.  Every state made by [from_schedule_batch] and the methods of
    the class, in any order, [filter_batch] being given indices that
    name rows, has its four parameter arrays aligned row by row, holds
    no logit bias, and has [is_all_greedy] set only when every row has
    [top_k <= 1]; merging another such state into it raises no
    exception. *)
Theorem derived_states_well_formed (s : BatchInfo) :
  derived s ->
  well_formed s ∧
  ∀ other, derived other -> (merge_batch other s).2 = Ok tt.
Proof.
  intros Hs. pose proof (derived_well_formed s Hs) as Hw.
  split; [exact Hw|]. intros other Ho.
  destruct Hw as (_ & Hb & _).
  destruct (derived_well_formed other Ho) as (_ & Hb' & _).
  pose proof (merge_batch_run s other) as Hrun. cbn zeta in Hrun.
  rewrite Hb, Hb' in Hrun. cbn in Hrun. tauto.
Qed.

(** *** Further properties of update_penalties *)

(** X19.  What [update_penalties] leaves, read off the penalizers: the
    scaling penalties are those of the last prepared repetition
    penalizer, the linear penalties are the other prepared penalizers
    applied in order to a zero tensor sized by the orchestrator's batch,
    and each buffer is absent when no prepared penalizer feeds it. *)
Theorem update_penalties_contributors (self : BatchInfo)
    (orch : Orchestrator) :
  penalizer_orchestrator self = Some orch ->
  let s' := update_penalties self in
  scaling_penalties s'
    = cumulated_repetition_penalties <$> last (scaling_contributors orch) ∧
  linear_penalties s'
    = match linear_contributors orch with
      | [] => None
      | ps => Some (apply_all ps
                      (torch_zeros (batch_size orch) (vocab_size self)))
      end ∧
  same_rows self s' ∧
  penalizer_orchestrator s' = Some orch.
Proof.
  intros Ho. cbn zeta. rewrite (update_penalties_unfold self orch Ho).
  rewrite penalty_fold. cbn. unfold scaling_contributors, linear_contributors.
  split_and!; [by destruct (last _)|by destruct (List.filter _ _)
              |by unfold same_rows|exact Ho].
Qed.

(** *** Further properties of update_regex_vocab_mask *)

Lemma fill_loop_length (i : nat) (gs : list (option G)) (mask : Tensor MaskRow) :
  (∀ g m j, length (fill_vocab_mask g m j) = length m) ->
  length (fill_loop i gs mask) = length mask.
Proof.
  intros Hfill. revert i mask.
  induction gs as [|[g|] gs IH]; intros i mask; cbn; [done| |apply IH].
  by rewrite IH, Hfill.
Qed.

(** X20.  [update_regex_vocab_mask] makes the mask anew: given that the
    allocator returns as many rows as asked for and that a fill keeps
    the number of rows, a mask it leaves has one row per row of
    [temperatures] whatever the size of the mask it found; the state it
    leaves does not depend on the mask and the [apply_mask] it found,
    and a second call changes nothing. *)
Theorem update_regex_vocab_mask_recomputes (self : BatchInfo) :
  (∀ g v b d, length (allocate_vocab_mask g v b d) = b) ->
  (∀ g m j, length (fill_vocab_mask g m j) = length m) ->
  (∀ mask, vocab_mask (update_regex_vocab_mask self) = Some mask ->
           length mask = len (temperatures self)) ∧
  (∀ stale_mask stale_apply,
     update_regex_vocab_mask
       (set_apply_mask stale_apply (set_vocab_mask stale_mask self))
     = update_regex_vocab_mask self) ∧
  update_regex_vocab_mask (update_regex_vocab_mask self)
    = update_regex_vocab_mask self.
Proof.
  intros Halloc Hfill. unfold update_regex_vocab_mask. split_and!.
  - intros mask.
    destruct (grammars self) as [gs|]; [|discriminate].
    destruct (negb (any_grammar gs)); [discriminate|].
    destruct (next_grammar gs) as [g|]; [|discriminate]. cbn.
    intros [= <-]. by rewrite fill_loop_length, Halloc.
  - intros stale_mask stale_apply. cbn.
    destruct (grammars self) as [gs|]; [|reflexivity].
    destruct (negb (any_grammar gs)); [reflexivity|].
    destruct (next_grammar gs); reflexivity.
  - destruct (grammars self) as [gs|] eqn:Hgs; cbn; [|by rewrite Hgs].
    destruct (negb (any_grammar gs)) eqn:Hany; cbn; [by rewrite Hgs, Hany|].
    destruct (next_grammar gs) as [g|] eqn:Hnext; cbn;
      by rewrite Hgs, ?Hany, ?Hnext.
Qed.

End Properties.

(** *** The properties on concrete batches *)

Import Examples.

(** Rows A, B merged with row C: the rows A, B, C, and all greedy only
    if both sides were. *)
Example merge_batch_ABC :
  let merged := after (merge_batch (from_schedule_batch [reqC] "cuda" 2 true))
                  batchAB in
  temperatures merged = map sp_temperature [reqA; reqB; reqC] ∧
  top_ks merged = map sp_top_k [reqA; reqB; reqC] ∧
  is_all_greedy batchAB = false ∧ is_all_greedy merged = false ∧
  logit_bias merged = None.
Proof. repeat split; reflexivity. Qed.

(** C3.  A logit bias on exactly one side.  The rows A, B without logit
    bias merged with row C that has one, and row C merged with the rows
    A, B: both times [merge_batch] raises TypeError, from the [with]
    statement of [merge_bias_tensor], when [self] has its three rows
    already.  No side is filled with zeros and the logit bias of [self]
    is the one it had: absent in the first case, of one row for three
    requests in the second. *)
Theorem merge_batch_bias_missing_on_self :
  let merged := after (merge_batch batchC_biased) batchAB in
  let merged' := after (merge_batch batchAB) batchC_biased in
  logit_bias batchAB = None ∧
  logit_bias batchC_biased = Some bias_one_row ∧
  info_len batchAB = 2 ∧ info_len batchC_biased = 1 ∧
  (merge_batch batchC_biased batchAB).2 = Raise TypeError ∧
  info_len merged = 3 ∧
  logit_bias merged = None ∧
  (merge_batch batchAB batchC_biased).2 = Raise TypeError ∧
  info_len merged' = 3 ∧
  bias_rows <$> logit_bias merged' = Some [[1 # 2; -1]]%Q.
Proof. cbn. repeat split; reflexivity. Qed.

(** [filter_batch([2, 0])] on the rows A, B, C leaves the rows C, A. *)
Lemma filter_batch_gathers_witness :
  (aligned batchABC 3 ∧ Forall (in_range 3) [2; 0]%Z) ∧
  let s' := after (filter_batch [2; 0]%Z [2; 0]%Z) batchABC in
  (temperatures s' = map sp_temperature [reqC; reqA] ∧
   top_ps s' = map sp_top_p [reqC; reqA] ∧
   top_ks s' = map sp_top_k [reqC; reqA] ∧
   min_ps s' = map sp_min_p [reqC; reqA]) ∧
  completes (filter_batch [2; 0]%Z [2; 0]%Z) batchABC ∧
  gathered (temperatures batchABC) [2; 0]%Z (temperatures s') ∧
  gathered (top_ps batchABC) [2; 0]%Z (top_ps s') ∧
  gathered (top_ks batchABC) [2; 0]%Z (top_ks s') ∧
  gathered (min_ps batchABC) [2; 0]%Z (min_ps s') ∧
  logit_bias s' = None.
Proof.
  assert (Ha : aligned batchABC 3).
  { repeat split; try reflexivity. intros b Hb. discriminate Hb. }
  assert (Hr : Forall (in_range 3) [2; 0]%Z).
  { repeat constructor; unfold in_range; lia. }
  split; [split; [exact Ha|exact Hr]|].
  split; [repeat split; reflexivity|].
  exact (filter_batch_gathers [2; 0]%Z [2; 0]%Z batchABC 3 Ha Hr).
Defined.

(** [update_penalties] on the rows A, B with two prepared penalizers:
    the repetition penalizer gives the scaling penalties, the frequency
    penalizer shifts a tensor of zeros. *)
Lemma update_penalties_recomputes_witness :
  penalizer_orchestrator batchAB_penalized = Some orchestratorAB ∧
  (scaling_penalties (update_penalties batchAB_penalized)
     = Some [[1; 6 # 5]; [1; 1]]%Q ∧
   linear_penalties (update_penalties batchAB_penalized)
     = Some [[-1 # 4; -1 # 4]; [-1 # 4; -1 # 4]]%Q) ∧
  let scaling :=
    cumulated_repetition_penalties
      <$> last (scaling_contributors orchestratorAB) in
  let linear :=
    match linear_contributors orchestratorAB with
    | [] => None
    | ps => Some (apply_all ps
                    (torch_zeros (batch_size orchestratorAB)
                       (vocab_size batchAB_penalized)))
    end in
  update_penalties batchAB_penalized
    = set_linear_penalties linear
        (set_scaling_penalties scaling batchAB_penalized) ∧
  update_penalties (update_penalties batchAB_penalized)
    = update_penalties batchAB_penalized ∧
  ∀ stale_linear stale_scaling : option PenaltyTensor,
    update_penalties
      (set_linear_penalties stale_linear
         (set_scaling_penalties stale_scaling batchAB_penalized))
    = update_penalties batchAB_penalized.
Proof.
  split; [reflexivity|]. split; [split; reflexivity|].
  exact (update_penalties_recomputes batchAB_penalized orchestratorAB eq_refl).
Defined.

Lemma simple_fill_frame (g : list bool) (m : Tensor (list bool)) (i j : nat) :
  i ≠ j -> fill_vocab_mask g m i !! j = m !! j.
Proof. intros Hij. cbn. by apply list_lookup_insert_ne. Defined.

Lemma simple_allocate_length (g : list bool) (v b : nat) (d : string) :
  length (allocate_vocab_mask g v b d) = b.
Proof. cbn. apply length_replicate. Defined.

Lemma simple_allocate_permits (g : list bool) (v b : nat) (d : string) :
  Forall permits_all (allocate_vocab_mask g v b d).
Proof.
  cbn. apply Forall_replicate. unfold permits_all. by apply Forall_replicate.
Defined.

(** [update_regex_vocab_mask] on the rows A, B, C with B constrained. *)
Lemma update_regex_vocab_mask_rows_witness :
  let self := batchABC_constrained in
  let s' := update_regex_vocab_mask self in
  constrained_rows self = [(1, [true; false])] ∧
  vocab_mask s' = Some [[true; true]; [true; false]; [true; true]] ∧
  (∀ i g, (i, g) ∈ constrained_rows self ↔
          ∃ gs, grammars self = Some gs ∧ gs !! i = Some (Some g)) ∧
  match constrained_rows self with
  | [] => vocab_mask s' = None ∧ apply_mask s' = None
  | (_, g) :: _ =>
      let mask0 :=
        allocate_vocab_mask g (vocab_size self) (len (temperatures self))
          (device self) in
      length mask0 = len (temperatures self) ∧
      apply_mask s' = Some (type_of g) ∧
      vocab_mask s' = Some (fill_rows (constrained_rows self) mask0) ∧
      ∀ i, i < len (temperatures self) ->
           (∀ g', (i, g') ∉ constrained_rows self) ->
           ∃ row, fill_rows (constrained_rows self) mask0 !! i = Some row ∧
                  mask0 !! i = Some row ∧ permits_all row
  end.
Proof.
  split; [reflexivity|]. split; [reflexivity|].
  exact (update_regex_vocab_mask_rows permits_all batchABC_constrained
           simple_fill_frame simple_allocate_length simple_allocate_permits).
Defined.

Lemma batchABC_aligned : aligned batchABC 3.
Proof. repeat split; try reflexivity. intros b Hb. discriminate Hb. Defined.

Lemma batchAB_aligned : aligned batchAB 2.
Proof. repeat split; try reflexivity. intros b Hb. discriminate Hb. Defined.

Lemma batchD_aligned : aligned batchD 1.
Proof. repeat split; try reflexivity. intros b Hb. discriminate Hb. Defined.

(** [filter_batch([2, 0, 2])] on the rows A, B, C leaves three aligned
    rows. *)
Lemma filter_batch_keeps_alignment_witness :
  (aligned batchABC 3 ∧ Forall (in_range 3) [2; 0; 2]%Z) ∧
  completes (filter_batch [] [2; 0; 2]%Z) batchABC ∧
  aligned (after (filter_batch [] [2; 0; 2]%Z) batchABC) 3.
Proof.
  assert (Hr : Forall (in_range 3) [2; 0; 2]%Z).
  { repeat constructor; unfold in_range; lia. }
  split; [split; [exact batchABC_aligned|exact Hr]|].
  exact (filter_batch_keeps_alignment [] [2; 0; 2]%Z batchABC 3
           batchABC_aligned Hr).
Defined.

(** [filter_batch([0, 5])] on the rows A, B, C raises. *)
Lemma filter_batch_out_of_range_witness :
  (aligned batchABC 3 ∧ ¬ Forall (in_range 3) [0; 5]%Z) ∧
  let s' := after (filter_batch [0; 5]%Z [0; 5]%Z) batchABC in
  (filter_batch [0; 5]%Z [0; 5]%Z batchABC).2 = Raise IndexError ∧
  same_rows batchABC s' ∧
  penalizer_orchestrator s'
    = orch_filter [0; 5]%Z [0; 5]%Z <$> penalizer_orchestrator batchABC.
Proof.
  assert (Hr : ¬ Forall (in_range 3) [0; 5]%Z).
  { rewrite !Forall_cons. unfold in_range. lia. }
  split; [split; [exact batchABC_aligned|exact Hr]|].
  exact (filter_batch_out_of_range [0; 5]%Z [0; 5]%Z batchABC 3
           batchABC_aligned Hr).
Defined.

(** [filter_batch([0, 1, 2])] on the rows A, B, C. *)
Lemma filter_batch_all_rows_witness :
  aligned batchABC 3 ∧
  completes (filter_batch [] (arange 0 3)) batchABC ∧
  same_rows batchABC (after (filter_batch [] (arange 0 3)) batchABC).
Proof.
  split; [exact batchABC_aligned|].
  exact (filter_batch_all_rows [] batchABC 3 batchABC_aligned).
Defined.

(** [filter_batch([2, 0])] and then [filter_batch([-1, 0, 0])] on the
    rows A, B, C: the rows A, C, C, as [filter_batch([0, 2, 2])] leaves
    them. *)
Lemma filter_batch_composes_witness :
  (aligned batchABC 3 ∧ Forall (in_range 3) [2; 0]%Z ∧
   Forall (in_range (length [2; 0]%Z)) [-1; 0; 0]%Z) ∧
  index_rows [2; 0]%Z [-1; 0; 0]%Z = Ok [0; 2; 2]%Z ∧
  ∃ new12,
    index_rows [2; 0]%Z [-1; 0; 0]%Z = Ok new12 ∧
    completes (filter_batch [] [2; 0]%Z) batchABC ∧
    completes (filter_batch [] [-1; 0; 0]%Z)
      (after (filter_batch [] [2; 0]%Z) batchABC) ∧
    completes (filter_batch [] new12) batchABC ∧
    same_rows
      (after (filter_batch [] [-1; 0; 0]%Z)
         (after (filter_batch [] [2; 0]%Z) batchABC))
      (after (filter_batch [] new12) batchABC).
Proof.
  assert (H1 : Forall (in_range 3) [2; 0]%Z).
  { repeat constructor; unfold in_range; lia. }
  assert (H2 : Forall (in_range (length [2; 0]%Z)) [-1; 0; 0]%Z).
  { repeat constructor; unfold in_range; cbn; lia. }
  split; [split_and!; [exact batchABC_aligned|exact H1|exact H2]|].
  split; [reflexivity|].
  exact (filter_batch_composes [] [] [] [2; 0]%Z [-1; 0; 0]%Z batchABC 3
           batchABC_aligned H1 H2).
Defined.

(** The rows A, B merged with row D, none with a logit bias: three
    aligned rows. *)
Lemma merge_batch_keeps_alignment_witness :
  (aligned batchAB 2 ∧ aligned batchD 1) ∧
  (completes (merge_batch batchD) batchAB
   ↔ logit_bias batchAB = None ∧ logit_bias batchD = None) ∧
  (logit_bias batchAB = None -> logit_bias batchD = None ->
   aligned (after (merge_batch batchD) batchAB) (2 + 1) ∧
   logit_bias (after (merge_batch batchD) batchAB) = None).
Proof.
  split; [split; [exact batchAB_aligned|exact batchD_aligned]|].
  exact (merge_batch_keeps_alignment batchAB batchD 2 1
           batchAB_aligned batchD_aligned).
Defined.

(** Row C with its logit bias merged with the rows A, B. *)
Lemma merge_batch_bias_raises_witness :
  (is_Some (logit_bias batchC_biased) ∨ is_Some (logit_bias batchAB)) ∧
  let s' := after (merge_batch batchAB) batchC_biased in
  (merge_batch batchAB batchC_biased).2 = Raise TypeError ∧
  temperatures s' = temperatures batchC_biased ++ temperatures batchAB ∧
  top_ps s' = top_ps batchC_biased ++ top_ps batchAB ∧
  top_ks s' = top_ks batchC_biased ++ top_ks batchAB ∧
  min_ps s' = min_ps batchC_biased ++ min_ps batchAB ∧
  is_all_greedy s' = is_all_greedy batchC_biased && is_all_greedy batchAB ∧
  logit_bias s' = logit_bias batchC_biased ∧
  ∀ n, aligned batchC_biased n -> is_Some (logit_bias batchC_biased) ->
       0 < info_len batchAB ->
       ∀ k, ¬ aligned s' k.
Proof.
  assert (Hb : is_Some (logit_bias batchC_biased) ∨
               is_Some (logit_bias batchAB)).
  { left. by eexists. }
  split; [exact Hb|].
  exact (merge_batch_bias_raises batchC_biased batchAB Hb).
Defined.

(** The rows A, B merged with row D, then filtered back to either
    side. *)
Lemma merge_then_filter_recovers_witness :
  (aligned batchAB 2 ∧ aligned batchD 1 ∧
   logit_bias batchAB = None ∧ logit_bias batchD = None) ∧
  let merged := after (merge_batch batchD) batchAB in
  (merge_batch batchD batchAB).2 = Ok tt ∧
  completes (filter_batch [] (arange 0 2)) merged ∧
  same_rows batchAB (after (filter_batch [] (arange 0 2)) merged) ∧
  completes (filter_batch [] (arange 2 1)) merged ∧
  same_rows batchD (after (filter_batch [] (arange 2 1)) merged).
Proof.
  split; [split_and!;
          [exact batchAB_aligned|exact batchD_aligned
          |reflexivity|reflexivity]|].
  exact (merge_then_filter_recovers [] batchAB batchD 2 1
           batchAB_aligned batchD_aligned eq_refl eq_refl).
Defined.

(** The rows A, B merged with row D and then filtered to row B. *)
Lemma derived_states_well_formed_witness :
  let s : SimpleInfo :=
    after (filter_batch [1]%Z [1]%Z) (after (merge_batch batchD) batchAB) in
  derived s ∧
  well_formed s ∧
  ∀ other, derived other -> (merge_batch other s).2 = Ok tt.
Proof.
  assert (Hd : derived (after (filter_batch [1]%Z [1]%Z)
                          (after (merge_batch batchD) batchAB))).
  { apply derived_filter; [apply derived_merge; apply derived_new|].
    repeat constructor; unfold in_range; cbn; lia. }
  split; [exact Hd|].
  exact (derived_states_well_formed _ Hd).
Defined.

(** [update_penalties] on the rows A, B: the repetition penalizer gives
    the scaling penalties, the frequency penalizer the linear ones. *)
Lemma update_penalties_contributors_witness :
  penalizer_orchestrator batchAB_penalized = Some orchestratorAB ∧
  let s' := update_penalties batchAB_penalized in
  scaling_penalties s'
    = cumulated_repetition_penalties
        <$> last (scaling_contributors orchestratorAB) ∧
  linear_penalties s'
    = match linear_contributors orchestratorAB with
      | [] => None
      | ps => Some (apply_all ps
                      (torch_zeros (batch_size orchestratorAB)
                         (vocab_size batchAB_penalized)))
      end ∧
  same_rows batchAB_penalized s' ∧
  penalizer_orchestrator s' = Some orchestratorAB.
Proof.
  split; [reflexivity|].
  exact (update_penalties_contributors batchAB_penalized orchestratorAB
           eq_refl).
Defined.

Lemma simple_fill_length (g : list bool) (m : Tensor (list bool)) (j : nat) :
  length (fill_vocab_mask g m j) = length m.
Proof. cbn. apply length_insert. Defined.

(** [update_regex_vocab_mask] on the rows A, B, C with B constrained. *)
Lemma update_regex_vocab_mask_recomputes_witness :
  let self := batchABC_constrained in
  ((∀ (g : list bool) v b d, length (allocate_vocab_mask g v b d) = b) ∧
   (∀ (g : list bool) m j, length (fill_vocab_mask g m j) = length m)) ∧
  (∀ mask, vocab_mask (update_regex_vocab_mask self) = Some mask ->
           length mask = len (temperatures self)) ∧
  (∀ stale_mask stale_apply,
     update_regex_vocab_mask
       (set_apply_mask stale_apply (set_vocab_mask stale_mask self))
     = update_regex_vocab_mask self) ∧
  update_regex_vocab_mask (update_regex_vocab_mask self)
    = update_regex_vocab_mask self.
Proof.
  split; [split; [exact simple_allocate_length|exact simple_fill_length]|].
  exact (update_regex_vocab_mask_recomputes batchABC_constrained
           simple_allocate_length simple_fill_length).
Defined.

End SamplingTheory.

Module SamplingObjectsTheory.

Import SamplingObjects.

Section Properties.
Context {Data : Type}.

Lemma copy_allocates (self : ref) (st : Store Data) (o : InfoObject) :
  infos st !! self = Some o ->
  let r := fresh (dom (infos st)) in
  copy self st
    = Some (r, {| infos := <[r := copy_fields o]> (infos st);
                  tensors := tensors st |}) ∧
  infos st !! r = None ∧ r ≠ self.
Proof.
  intros Ho. cbn. unfold copy. rewrite Ho. cbn. split; [done|].
  assert (Hfresh : infos st !! fresh (dom (infos st)) = None).
  { apply not_elem_of_dom. apply is_fresh. }
  split; [done|]. intros Heq. rewrite Heq in Hfresh. congruence.
Qed.

(** C9, as the code has it.  [copy] creates a new instance and leaves
    the store otherwise as it was.  The new instance references the very
    tensors [temperatures], [top_ps], [top_ks] and [min_ps] of the
    original and has its two flags, [vocab_size] and [device]; its
    [logit_bias], [vocab_mask], [apply_mask], [grammars],
    [penalizer_orchestrator], [linear_penalties] and [scaling_penalties]
    are absent.  Whatever is later assigned to attributes of the copy,
    the original instance stays as it was, while a write into a shared
    parameter tensor through the copy is seen through the original. *)
Theorem copy_shares_parameter_arrays (self : ref) (st : Store Data)
    (o : InfoObject) :
  infos st !! self = Some o ->
  ∃ r st' c,
    copy self st = Some (r, st') ∧
    r ≠ self ∧ infos st !! r = None ∧
    tensors st' = tensors st ∧
    (∀ r', r' ≠ r -> infos st' !! r' = infos st !! r') ∧
    infos st' !! r = Some c ∧
    (temperatures c = temperatures o ∧ top_ps c = top_ps o ∧
     top_ks c = top_ks o ∧ min_ps c = min_ps o) ∧
    (is_all_greedy c = is_all_greedy o ∧
     need_min_p_sampling c = need_min_p_sampling o ∧
     vocab_size c = vocab_size o ∧ device c = device o) ∧
    (logit_bias c = None ∧ vocab_mask c = None ∧ apply_mask c = None ∧
     grammars c = None ∧ penalizer_orchestrator c = None ∧
     linear_penalties c = None ∧ scaling_penalties c = None) ∧
    (∀ f, infos (setattrs r f st') !! self = Some o) ∧
    (∀ field d,
       field ∈ [temperatures; top_ps; top_ks; min_ps] ->
       read_array field self (write_tensor (field c) d st') = Some d).
Proof.
  intros Ho. destruct (copy_allocates self st o Ho) as (Hc & Hfresh & Hne).
  eexists _, _, (copy_fields o). split; [exact Hc|]. cbn.
  split; [done|]. split; [done|]. split; [done|].
  split; [intros r' Hr'; by rewrite lookup_insert_ne|].
  split; [by rewrite lookup_insert_eq|].
  split; [done|]. split; [done|]. split; [done|]. split.
  - intros f. rewrite lookup_alter_ne by done.
    rewrite lookup_insert_ne by done. exact Ho.
  - intros field d Hfield. unfold read_array. cbn.
    rewrite lookup_insert_ne by done. rewrite Ho. cbn.
    assert (Hsame : field (copy_fields o) = field o).
    { set_unfold. destruct Hfield as [->|[->|[->|[->|[]]]]]; reflexivity. }
    rewrite Hsame. by rewrite lookup_insert_eq.
Qed.

End Properties.

Import Examples.

(** C9 as stated fails on an instance that has a logit bias: the copy
    does not reference the bias tensor of the original, its [logit_bias]
    is absent. *)
Lemma copy_drops_logit_bias :
  ∃ r st' c,
    copy 0 biased_store = Some (r, st') ∧
    infos st' !! r = Some c ∧
    infos st' !! 0 = Some biased_object ∧
    logit_bias biased_object = Some 14 ∧
    logit_bias c = None ∧
    logit_bias c ≠ logit_bias biased_object.
Proof.
  destruct (copy_allocates 0 biased_store biased_object eq_refl)
    as (Hc & Hfresh & Hne).
  eexists _, _, (copy_fields biased_object). split; [exact Hc|]. cbn.
  split; [by rewrite lookup_insert_eq|].
  split; [by rewrite lookup_insert_ne|].
  repeat split. discriminate.
Qed.

Lemma copy_shares_parameter_arrays_witness :
  infos biased_store !! 0 = Some biased_object ∧
  ∃ r st' c,
    copy 0 biased_store = Some (r, st') ∧
    r ≠ 0 ∧ infos biased_store !! r = None ∧
    tensors st' = tensors biased_store ∧
    (∀ r', r' ≠ r -> infos st' !! r' = infos biased_store !! r') ∧
    infos st' !! r = Some c ∧
    (temperatures c = temperatures biased_object ∧
     top_ps c = top_ps biased_object ∧
     top_ks c = top_ks biased_object ∧ min_ps c = min_ps biased_object) ∧
    (is_all_greedy c = is_all_greedy biased_object ∧
     need_min_p_sampling c = need_min_p_sampling biased_object ∧
     vocab_size c = vocab_size biased_object ∧
     device c = device biased_object) ∧
    (logit_bias c = None ∧ vocab_mask c = None ∧ apply_mask c = None ∧
     grammars c = None ∧ penalizer_orchestrator c = None ∧
     linear_penalties c = None ∧ scaling_penalties c = None) ∧
    (∀ f, infos (setattrs r f st') !! 0 = Some biased_object) ∧
    (∀ field d,
       field ∈ [temperatures; top_ps; top_ks; min_ps] ->
       read_array field 0 (write_tensor (field c) d st') = Some d).
Proof.
  split; [reflexivity|].
  exact (copy_shares_parameter_arrays 0 biased_store biased_object eq_refl).
Defined.

End SamplingObjectsTheory.

Module GrammarBackendTheory.

Import GrammarBackend.

Section Properties.
Context {G : Type} {B : Backend G}.

Implicit Types (s : state (G := G)) (p q : pc (G := G)).

(** The thread table after thread [i] has moved to [p']. *)
Lemma lookup_goto (l : list pc) (i j : nat) (p p' q : pc (G := G)) :
  l !! i = Some p ->
  <[i := p']> l !! j = Some q ->
  (j = i ∧ q = p') ∨ (j ≠ i ∧ l !! j = Some q).
Proof.
  intros Hi Hj. destruct (decide (j = i)) as [->|Hne].
  - rewrite list_lookup_insert_eq in Hj by (eapply lookup_lt_Some; eauto).
    left. split; congruence.
  - rewrite list_lookup_insert_ne in Hj by done. by right.
Qed.

(** Takes a step apart: one goal per line of the source the thread can
    be at, with the state after the step spelled out. *)
Ltac step_cases Hstep :=
  unfold step_thread in Hstep;
  match type of Hstep with
  | context [threads ?s !! ?i] =>
      let p := fresh "p" in
      let Hp := fresh "Hp" in
      destruct (threads s !! i) as [p|] eqn:Hp; [|discriminate Hstep];
      cbn in Hstep;
      destruct p as [[key|key|]|key|key|key|key [|] a|key a|key a|key|key|
                     |c oa en];
      cbn in Hstep;
      repeat (first
        [ discriminate Hstep
        | match type of Hstep with
          | context [match ?x with _ => _ end] => destruct x eqn:?
          | context [mbind _ ?x] => destruct x eqn:?; cbn in Hstep
          end ]);
      try discriminate Hstep;
      injection Hstep as <-
  end.

Lemma mutex_step s i s' : inv s -> step_thread i s = Some s' -> mutex s'.
Proof.
  intros (Hmx & _) Hstep. step_cases Hstep; intros j q Hj Hq; cbn in *;
    (destruct (lookup_goto _ _ _ _ _ _ Hp Hj) as [[-> ->]|[Hne Hj']];
     [ try (exfalso; exact Hq); try reflexivity;
       try (apply (Hmx _ _ Hp I))
     | pose proof (Hmx _ _ Hj' Hq) as Hl;
       first [ exact Hl | congruence
             | pose proof (Hmx _ _ Hp I); congruence ] ]).
Qed.

Lemma owner_has_addr p a : owner_of p = Some a -> addr_of p = Some a.
Proof.
  destruct p as [| | | |? [|] ?| | | | | |[] [] []]; cbn; congruence.
Qed.

Lemma entry_has_addr p key a : entry_of p = Some (key, a) -> addr_of p = Some a.
Proof.
  destruct p as [| | | |? [|] ?| | | | | |[] [] []]; cbn; congruence.
Qed.

Lemma addresses_valid_step s i s' :
  inv s -> step_thread i s = Some s' -> addresses_valid s'.
Proof.
  intros (Hmx & [Hc Ht] & _) Hstep. step_cases Hstep; cbn;
    (split;
     [ intros k a0 Hk; cbn in *; rewrite ?length_alter, ?length_app; cbn;
       try (rewrite lookup_empty in Hk; discriminate Hk);
       try (apply lookup_insert_Some in Hk as [[<- <-]|[_ Hk]])
     | intros j q a0 Hj Hq; cbn in *;
       rewrite ?length_alter, ?length_app; cbn;
       destruct (lookup_goto _ _ _ _ _ _ Hp Hj) as [[-> ->]|[Hne Hj']];
       [ cbn in Hq; try discriminate Hq; try (injection Hq as <-)
       | pose proof (Ht _ _ _ Hj' Hq) ] ]);
    try (pose proof (Ht _ _ _ Hp eq_refl));
    try match goal with
        | H : cache _ !! _ = Some _ |- _ => pose proof (Hc _ _ H)
        end;
    try lia.
Qed.

Lemma cache_injective_step s i s' :
  inv s -> step_thread i s = Some s' -> cache_injective s'.
Proof.
  intros (Hmx & [Hc Ht] & Hinj & _) Hstep.
  step_cases Hstep; intros k1 k2 a0 H1 H2; cbn in *;
    try (eapply Hinj; eassumption);
    try (rewrite lookup_empty in H1; discriminate H1).
  apply lookup_insert_Some in H1 as [[<- <-]|[Hn1 H1]];
    apply lookup_insert_Some in H2 as [[<- Ha]|[Hn2 H2]]; try done.
  - pose proof (Hc _ _ H2). lia.
  - pose proof (Hc _ _ H1). lia.
  - eapply Hinj; eassumption.
Qed.

Lemma lock_view_step s i s' :
  inv s -> step_thread i s = Some s' -> lock_view s'.
Proof.
  intros (Hmx & [Hc Ht] & Hinj & [Hmiss Hpeek] & Huniq & Hpend & Hres & _)
    Hstep.
  step_cases Hstep; cbn;
    (split;
     [ intros j k Hj; cbn in *;
       destruct (lookup_goto _ _ _ _ _ _ Hp Hj) as [[-> Heq]|[Hne Hj']];
       [ try discriminate Heq; try (injection Heq as ->)
       | pose proof (Hmx _ _ Hj' I); try pose proof (Hmx _ _ Hp I);
         try congruence; try (eapply Hmiss; eassumption) ]
     | intros j k Hj; cbn in *;
       destruct (lookup_goto _ _ _ _ _ _ Hp Hj) as [[-> Heq]|[Hne Hj']];
       [ try discriminate Heq; try (injection Heq as ->)
       | pose proof (Hmx _ _ Hj' I); try pose proof (Hmx _ _ Hp I);
         try congruence; try (eapply Hpeek; eassumption) ] ]).
  - by apply eq_None_not_Some.
  - destruct (Hpeek _ _ Hj') as (a0 & e & Hk & He & Hev).
    exists a0, e. split; [done|]. split; [|done].
    rewrite list_lookup_alter_ne; [done|]. intros <-.
    destruct (Hpend _ _ _ _ Hp eq_refl He) as [Hf _]. congruence.
  - destruct (Hpeek _ _ Hj') as (a0 & e & Hk & He & Hev).
    destruct (decide (a = a0)) as [<-|Hne'].
    + exists a, (set_event e). rewrite list_lookup_alter_eq, He. done.
    + exists a0, e. by rewrite list_lookup_alter_ne.
  - eauto.
Qed.

Lemma owner_unique_step s i s' :
  inv s -> step_thread i s = Some s' -> owner_unique s'.
Proof.
  intros (Hmx & [Hc Ht] & Hinj & [Hmiss Hpeek] & Huniq & Hpend & Hres & _)
    Hstep.
  step_cases Hstep; intros j1 j2 q1 q2 a0 H1 H2 Ho1 Ho2; cbn in *;
    destruct (lookup_goto _ _ _ _ _ _ Hp H1) as [[-> ->]|[Hne1 H1']];
    destruct (lookup_goto _ _ _ _ _ _ Hp H2) as [[-> ->]|[Hne2 H2']];
    try reflexivity;
    try (eapply Huniq; eassumption);
    try discriminate Ho1; try discriminate Ho2;
    cbn in Ho1, Ho2;
    try (injection Ho1 as <-); try (injection Ho2 as <-);
    try (exfalso; apply Hne2; symmetry;
         eapply (Huniq _ _ _ _ _ H2' Hp Ho2 eq_refl));
    try (exfalso; apply Hne1;
         eapply (Huniq _ _ _ _ _ H1' Hp Ho1 eq_refl)).
  - pose proof (Ht _ _ _ H2' (owner_has_addr _ _ Ho2)). lia.
  - pose proof (Ht _ _ _ H1' (owner_has_addr _ _ Ho1)). lia.
Qed.

Lemma owner_pending_step s i s' :
  inv s -> step_thread i s = Some s' -> owner_pending s'.
Proof.
  intros (Hmx & [Hc Ht] & Hinj & [Hmiss Hpeek] & Huniq & Hpend & Hres & _)
    Hstep.
  step_cases Hstep; intros j q a0 e Hj Ho He; cbn in *;
    (destruct (lookup_goto _ _ _ _ _ _ Hp Hj) as [[-> ->]|[Hne Hj']];
     [ cbn in Ho; try discriminate Ho; try (injection Ho as <-)
     | try (eapply Hpend; eassumption) ]).
  - rewrite lookup_app_r, Nat.sub_diag in He by lia.
    injection He as <-. cbn. auto.
  - pose proof (Ht _ _ _ Hj' (owner_has_addr _ _ Ho)).
    rewrite lookup_app_l in He by lia. eapply Hpend; eassumption.
  - rewrite list_lookup_alter_eq in He.
    destruct (entries s !! a) as [e0|] eqn:He0; [|discriminate He].
    injection He as <-. cbn.
    destruct (Hpend _ _ _ _ Hp eq_refl He0) as [Hev _]. eauto.
  - assert (a0 ≠ a) as Hne'.
    { intros ->. apply Hne. eapply (Huniq _ _ _ _ _ Hj' Hp Ho eq_refl). }
    rewrite list_lookup_alter_ne in He by done. eapply Hpend; eassumption.
  - destruct (Hpend _ _ _ _ Hp eq_refl He) as [Hev [Hv|[? [=]]]]. auto.
  - assert (a0 ≠ a) as Hne'.
    { intros ->. apply Hne. eapply (Huniq _ _ _ _ _ Hj' Hp Ho eq_refl). }
    rewrite list_lookup_alter_ne in He by done. eapply Hpend; eassumption.
Qed.

Lemma copy_of_copy_value (v : option G) (n : nat) : copy_of v (copy_value v n).
Proof. destruct v; cbn; eauto. Qed.

(** Signalled entries that keep their value keep the results valid. *)
Lemma result_at_mono (es es' : list (CacheEntry (G := G))) p :
  (∀ a e, es !! a = Some e -> event e = true ->
          ∃ e', es' !! a = Some e' ∧ event e' = true ∧ value e' = value e) ->
  result_at es p -> result_at es' p.
Proof.
  intros Hmono. destruct p as [| | | | | | | | | |c [a|] [r|]]; cbn; auto.
  - intros (e & He & Hev). destruct (Hmono _ _ He Hev) as (e' & ? & ? & ?).
    eauto.
  - intros (e & He & Hev & Hcp).
    destruct (Hmono _ _ He Hev) as (e' & ? & ? & Hv).
    exists e'. rewrite Hv. auto.
Qed.

Lemma results_ok_step s i s' :
  inv s -> step_thread i s = Some s' -> results_ok s'.
Proof.
  intros (Hmx & [Hc Ht] & Hinj & [Hmiss Hpeek] & Huniq & Hpend & Hres & _)
    Hstep.
  step_cases Hstep; intros j q Hj; cbn in *;
    (destruct (lookup_goto _ _ _ _ _ _ Hp Hj) as [[-> ->]|[Hne Hj']];
     [ cbn; try exact I; try (split; [reflexivity|intros ?; discriminate])
     | try (apply (Hres _ _ Hj')) ]).
  - eapply result_at_mono; [|apply (Hres _ _ Hj')].
    intros a e He Hev. exists e. split; [by apply lookup_app_l_Some|done].
  - eauto.
  - eapply result_at_mono; [|apply (Hres _ _ Hj')].
    intros a0 e He Hev. exists e. rewrite list_lookup_alter_ne; [done|].
    intros <-. destruct (Hpend _ _ _ _ Hp eq_refl He) as [Hf _]. congruence.
  - destruct (lookup_lt_is_Some_2 (entries s) a (Ht _ _ _ Hp eq_refl))
      as [e He].
    exists (set_event e). rewrite list_lookup_alter_eq, He. done.
  - eapply result_at_mono; [|apply (Hres _ _ Hj')].
    intros a0 e He Hev. destruct (decide (a = a0)) as [<-|Hne'].
    + exists (set_event e). rewrite list_lookup_alter_eq, He. done.
    + exists e. by rewrite list_lookup_alter_ne.
  - destruct (Hres _ _ Hp) as (e & He & Hev).
    exists e. repeat split; [done..|].
    replace c with e by congruence. apply copy_of_copy_value.
  - destruct (Hpeek _ _ Hp) as (a' & e & Hk & He & Hev).
    exists e. replace n with a' by congruence. repeat split; [done..|].
    replace c with e by congruence. apply copy_of_copy_value.
Qed.

Lemma entry_cached_step s i s' :
  inv s -> step_thread i s = Some s' -> resets s' = 0 -> entry_cached s'.
Proof.
  intros (Hmx & [Hc Ht] & Hinj & [Hmiss Hpeek] & Huniq & Hpend & Hres & Hrst)
    Hstep.
  step_cases Hstep; intros Hr; cbn in Hr; try discriminate Hr;
    destruct (Hrst Hr) as [Hec Hlog]; intros j q k a0 Hj He; cbn in *;
    (destruct (lookup_goto _ _ _ _ _ _ Hp Hj) as [[-> ->]|[Hne Hj']];
     [ cbn in He; try discriminate He; try (injection He as <- <-);
       try (apply (Hec _ _ _ _ Hp eq_refl)); try assumption
     | try (apply (Hec _ _ _ _ Hj' He)) ]).
  - apply lookup_insert_eq.
  - pose proof (Hec _ _ _ _ Hj' He) as Hk. pose proof (Hmiss _ _ Hp) as Hn.
    rewrite lookup_insert_ne; [done|intros <-; congruence].
Qed.

Lemma compiles_of_snoc (key key' : Key) (o : outcome G) s c l t th n r :
  compiles_of key (State c l t th n (compiled s ++ [(key', o)]) r)
  = compiles_of key s ++ (if decide (key' = key) then [(key', o)] else []).
Proof.
  unfold compiles_of. cbn. rewrite filter_app. f_equal.
Qed.

Lemma compiles_of_same (key : Key) s c l t th n r :
  compiles_of key (State c l t th n (compiled s) r) = compiles_of key s.
Proof. reflexivity. Qed.

Lemma log_ok_step s i s' :
  inv s -> step_thread i s = Some s' -> resets s' = 0 -> log_ok s'.
Proof.
  intros (Hmx & [Hc Ht] & Hinj & [Hmiss Hpeek] & Huniq & Hpend & Hres & Hrst)
    Hstep.
  step_cases Hstep; intros Hr; cbn in Hr; try discriminate Hr;
    destruct (Hrst Hr) as [Hec Hlog]; intros k;
    destruct (Hlog k) as (Hlen & Hnone & Hset & Hown);
    rewrite ?compiles_of_snoc, ?compiles_of_same; cbn [cache entries threads];
    (split; [|split; [|split]]);
    try exact Hlen; try exact Hnone; try exact Hset;
    try (intros j q a0 Hj He Ho;
         destruct (lookup_goto _ _ _ _ _ _ Hp Hj) as [[-> ->]|[Hne Hj']];
         [ cbn in Ho; try discriminate Ho | try (apply (Hown _ _ _ Hj' He Ho)) ]).
  (* lines 92-94: the entry is created and put in the cache *)
  - intros Hk. apply lookup_insert_None in Hk as [Hk _]. auto.
  - intros a0 e Hk He Hev. apply lookup_insert_Some in Hk as [[<- <-]|[_ Hk]].
    + rewrite lookup_app_r, Nat.sub_diag in He by lia.
      injection He as <-. discriminate Hev.
    + rewrite lookup_app_l in He by (eapply Hc; eauto). eauto.
  - cbn in He. injection He as <- <-. apply Hnone. eapply Hmiss; eauto.
  - pose proof (Hown _ _ _ Hj' He Ho) as Hq.
    pose proof (Ht _ _ _ Hj' (owner_has_addr _ _ Ho)).
    destruct q; try exact Hq.
    intros e He'. rewrite lookup_app_l in He' by lia. auto.
  (* line 99: the compile returns and its result is stored *)
  - destruct (decide (key = k)) as [<-|Hk]; [|by rewrite app_nil_r].
    rewrite (Hown _ _ _ Hp eq_refl eq_refl). cbn. lia.
  - intros Hk'. destruct (decide (key = k)) as [<-|Hk].
    + rewrite (Hec _ _ _ _ Hp eq_refl) in Hk'. discriminate Hk'.
    + rewrite app_nil_r. auto.
  - intros a0 e Hk' He Hev. destruct (decide (a = a0)) as [<-|Hne].
    + rewrite list_lookup_alter_eq in He.
      destruct (entries s !! a) as [e0|] eqn:He0; [|discriminate He].
      injection He as <-. cbn in Hev.
      destruct (Hpend _ _ _ _ Hp eq_refl He0) as [Hf _]. congruence.
    + rewrite list_lookup_alter_ne in He by done.
      destruct (decide (key = k)) as [<-|Hk].
      * rewrite (Hec _ _ _ _ Hp eq_refl) in Hk'. congruence.
      * rewrite app_nil_r. eauto.
  - cbn in He. injection He as <- <-. clear Ho.
    intros e He. rewrite list_lookup_alter_eq in He.
    destruct (entries s !! a) as [e0|] eqn:He0; [|discriminate He].
    injection He as <-. rewrite decide_True by done.
    rewrite (Hown _ _ _ Hp eq_refl eq_refl). reflexivity.
  - assert (key ≠ k) as Hk.
    { intros <-. pose proof (Hec _ _ _ _ Hp eq_refl) as H1.
      pose proof (Hec _ _ _ _ Hj' He) as H2.
      assert (a0 = a) as -> by congruence.
      apply Hne. eapply (Huniq _ _ _ _ _ Hj' Hp Ho eq_refl). }
    assert (a0 ≠ a) as Ha.
    { intros ->. apply Hne. eapply (Huniq _ _ _ _ _ Hj' Hp Ho eq_refl). }
    rewrite decide_False by done. rewrite app_nil_r.
    pose proof (Hown _ _ _ Hj' He Ho) as Hq. destruct q; try exact Hq.
    intros e He'. rewrite list_lookup_alter_ne in He' by done. auto.
  (* line 99: the compile raises *)
  - destruct (decide (key = k)) as [<-|Hk]; [|by rewrite app_nil_r].
    rewrite (Hown _ _ _ Hp eq_refl eq_refl). cbn. lia.
  - intros Hk'. destruct (decide (key = k)) as [<-|Hk].
    + rewrite (Hec _ _ _ _ Hp eq_refl) in Hk'. discriminate Hk'.
    + rewrite app_nil_r. auto.
  - intros a0 e Hk' He Hev. destruct (decide (key = k)) as [<-|Hk].
    + rewrite (Hec _ _ _ _ Hp eq_refl) in Hk'. injection Hk' as <-.
      destruct (Hpend _ _ _ _ Hp eq_refl He) as [Hf _]. congruence.
    + rewrite app_nil_r. eauto.
  - cbn in He. injection He as <- <-. rewrite decide_True by done.
    rewrite (Hown _ _ _ Hp eq_refl eq_refl). reflexivity.
  - assert (key ≠ k) as Hk.
    { intros <-. pose proof (Hec _ _ _ _ Hp eq_refl) as H1.
      pose proof (Hec _ _ _ _ Hj' He) as H2.
      assert (a0 = a) as -> by congruence.
      apply Hne. eapply (Huniq _ _ _ _ _ Hj' Hp Ho eq_refl). }
    rewrite decide_False by done. rewrite app_nil_r.
    apply (Hown _ _ _ Hj' He Ho).
  (* line 100: the event is set *)
  - intros a0 e Hk' He Hev. destruct (decide (a = a0)) as [<-|Hne].
    + rewrite list_lookup_alter_eq in He.
      destruct (entries s !! a) as [e0|] eqn:He0; [|discriminate He].
      injection He as <-. cbn.
      assert (k = key) as -> by (eapply Hinj; eauto using Hec).
      apply (Hown _ _ _ Hp eq_refl eq_refl _ He0).
    + rewrite list_lookup_alter_ne in He by done. eauto.
  - assert (a0 ≠ a) as Ha.
    { intros ->. apply Hne. eapply (Huniq _ _ _ _ _ Hj' Hp Ho eq_refl). }
    pose proof (Hown _ _ _ Hj' He Ho) as Hq. destruct q; try exact Hq.
    intros e He'. rewrite list_lookup_alter_ne in He' by done. auto.
Qed.

Lemma resets_step s i s' :
  step_thread i s = Some s' -> resets s' = 0 -> resets s = 0.
Proof. intros Hstep. step_cases Hstep; cbn; congruence. Qed.

Lemma inv_step s i s' : inv s -> step_thread i s = Some s' -> inv s'.
Proof.
  intros Hinv Hstep. unfold inv.
  split; [by eapply mutex_step|].
  split; [by eapply addresses_valid_step|].
  split; [by eapply cache_injective_step|].
  split; [by eapply lock_view_step|].
  split; [by eapply owner_unique_step|].
  split; [by eapply owner_pending_step|].
  split; [by eapply results_ok_step|].
  intros Hr. split; [by eapply entry_cached_step|by eapply log_ok_step].
Qed.

Lemma inv_init (calls : list call) : inv (init (G := G) calls).
Proof.
  assert (Hstart : ∀ i p, threads (init (G := G) calls) !! i = Some p ->
                          ∃ c, p = Start c).
  { intros i p Hp. cbn in Hp. rewrite list_lookup_fmap in Hp.
    destruct (calls !! i); [|discriminate Hp]. injection Hp as <-. eauto. }
  assert (Hempty : ∀ key a, cache (init (G := G) calls) !! key = Some a ->
                            False).
  { intros key a Hk. cbn in Hk. rewrite lookup_empty in Hk. discriminate Hk. }
  unfold inv, addresses_valid, lock_view. split_and!.
  - intros i p Hp Hh. destruct (Hstart _ _ Hp) as [c ->]. destruct Hh.
  - intros key a Hk. destruct (Hempty _ _ Hk).
  - intros i p a Hp Ha. destruct (Hstart _ _ Hp) as [c ->]. discriminate Ha.
  - intros key key' a Hk. destruct (Hempty _ _ Hk).
  - intros i key Hp. destruct (Hstart _ _ Hp) as [c [=]].
  - intros i key Hp. destruct (Hstart _ _ Hp) as [c [=]].
  - intros i j p q a Hp _ Ho. destruct (Hstart _ _ Hp) as [c ->].
    discriminate Ho.
  - intros i p a e Hp Ho. destruct (Hstart _ _ Hp) as [c ->]. discriminate Ho.
  - intros i p Hp. destruct (Hstart _ _ Hp) as [c ->]. exact I.
  - intros _. split.
    + intros i p key a Hp He. destruct (Hstart _ _ Hp) as [c ->].
      discriminate He.
    + intros key. split_and!.
      * cbn. lia.
      * reflexivity.
      * intros a e Hk. destruct (Hempty _ _ Hk).
      * intros i p a Hp He. destruct (Hstart _ _ Hp) as [c ->].
        discriminate He.
Qed.

Lemma inv_reachable (calls : list call) s : reachable calls s -> inv s.
Proof.
  induction 1 as [|s i s' _ IH Hstep]; [apply inv_init|].
  eapply inv_step; eassumption.
Qed.

Lemma run_reachable (calls : list call) (schedule : list nat) s s' :
  reachable calls s -> run schedule s = Some s' -> reachable calls s'.
Proof.
  revert s. induction schedule as [|i rest IH]; intros s Hs Hrun; cbn in Hrun.
  - by injection Hrun as <-.
  - destruct (step_thread i s) as [s1|] eqn:Hstep; [|discriminate Hrun].
    cbn in Hrun. eapply IH; [|exact Hrun]. eapply reach_step; eassumption.
Qed.

(** *** No deadlock without exception, and termination *)

Lemma lock_held_step s i s' :
  inv s -> live_inv s -> step_thread i s = Some s' -> lock_held s'.
Proof.
  intros (Hmx & _) (Hlk & _) Hstep.
  step_cases Hstep; intros j Hj; cbn in *; try discriminate Hj.
  all: try (injection Hj as <-; eexists; split;
            [apply list_lookup_insert_eq; eapply lookup_lt_Some; eauto
            |exact I]).
  all: destruct (Hlk _ Hj) as (q & Hq & Hh).
  all: destruct (decide (j = i)) as [->|Hne];
    [ rewrite Hp in Hq; injection Hq as <-;
      first [ by destruct Hh
            | eexists; split;
              [apply list_lookup_insert_eq; eapply lookup_lt_Some; eauto
              |exact I] ]
    | exists q; split; [by rewrite list_lookup_insert_ne|done] ].
Qed.

Lemma hit_view_step s i s' :
  inv s -> live_inv s -> step_thread i s = Some s' -> hit_view s'.
Proof.
  intros (Hmx & _) (_ & Hhit & _) Hstep.
  step_cases Hstep; intros j k Hj; cbn in *;
    (destruct (lookup_goto _ _ _ _ _ _ Hp Hj) as [[-> Heq]|[Hne Hj']];
     [ try discriminate Heq; try (injection Heq as ->); try assumption
     | pose proof (Hmx _ _ Hj' I); try pose proof (Hmx _ _ Hp I);
       try congruence; try (eapply Hhit; eassumption) ]).
Qed.

Lemma owner_exists_step s i s' :
  inv s -> live_inv s -> step_thread i s = Some s' -> owner_exists s'.
Proof.
  intros (Hmx & [Hc Ht] & Hinj & [Hmiss Hpeek] & Huniq & Hpend & Hres & _)
    (_ & _ & Hex) Hstep.
  assert (Hkeep : ∀ (p p' : pc (G := G)) a e,
            threads s !! i = Some p ->
            entries s !! a = Some e -> event e = false ->
            (∀ a', owner_of p = Some a' -> owner_of p' = Some a') ->
            ∃ j q, <[i := p']> (threads s) !! j = Some q ∧
                   owner_of q = Some a).
  { intros p p' a0 e Hp He Hev Hown.
    destruct (Hex _ _ He Hev) as (j & q & Hq & Ho).
    destruct (decide (j = i)) as [->|Hne].
    - exists i, p'. split; [|apply Hown; congruence].
      apply list_lookup_insert_eq. by eapply lookup_lt_Some.
    - exists j, q. split; [by rewrite list_lookup_insert_ne|done]. }
  step_cases Hstep; intros a0 e He Hev; cbn in *;
    try (eapply (Hkeep _ _ _ _ eq_refl He Hev);
         cbn; intros a' Ho; first [discriminate Ho | exact Ho]).
  - destruct (decide (a0 = length (entries s))) as [->|Hne].
    + exists i. eexists.
      split; [apply list_lookup_insert_eq; by eapply lookup_lt_Some|].
      reflexivity.
    + apply lookup_app_Some in He as [He|[Hge He]].
      * eapply (Hkeep _ _ _ _ eq_refl He Hev). cbn. discriminate.
      * apply lookup_lt_Some in He. cbn in He. lia.
  - destruct (decide (a0 = a)) as [->|Hne].
    + exists i. eexists.
      split; [apply list_lookup_insert_eq; by eapply lookup_lt_Some|].
      reflexivity.
    + rewrite list_lookup_alter_ne in He by done.
      eapply (Hkeep _ _ _ _ eq_refl He Hev). cbn. intros a' [= <-]. done.
  - destruct (decide (a0 = a)) as [->|Hne].
    + rewrite list_lookup_alter_eq in He.
      destruct (entries s !! a) as [e0|]; [|discriminate He].
      injection He as <-. discriminate Hev.
    + rewrite list_lookup_alter_ne in He by done.
      destruct (Hex _ _ He Hev) as (j & q & Hq & Ho).
      exists j, q. split; [|done].
      rewrite list_lookup_insert_ne; [done|]. intros <-.
      rewrite Hp in Hq. injection Hq as <-. cbn in Ho. congruence.
Qed.

Lemma live_inv_step s i s' :
  inv s -> live_inv s -> step_thread i s = Some s' -> live_inv s'.
Proof.
  intros Hinv Hlive Hstep. unfold live_inv.
  split; [by eapply lock_held_step|].
  split; [by eapply hit_view_step|by eapply owner_exists_step].
Qed.

Lemma live_inv_init (calls : list call) : live_inv (init (G := G) calls).
Proof.
  unfold live_inv. split_and!.
  - intros i Hi. discriminate Hi.
  - intros i key Hp. cbn in Hp. rewrite list_lookup_fmap in Hp.
    destruct (calls !! i); discriminate Hp.
  - intros a e He. discriminate He.
Qed.

Lemma live_inv_reachable (calls : list call) s :
  reachable calls s -> live_inv s.
Proof.
  induction 1 as [|s i s' Hs IH Hstep]; [apply live_inv_init|].
  eapply live_inv_step; [by eapply inv_reachable|exact IH|exact Hstep].
Qed.

(** A thread that holds the lock can take its next step. *)
Lemma holder_can_step s i p :
  inv s -> live_inv s ->
  threads s !! i = Some p -> holds_lock p -> is_Some (step_thread i s).
Proof.
  intros (_ & [Hc _] & _ & [_ Hpeek] & _) (_ & Hhit & _) Hp Hh.
  unfold step_thread. rewrite Hp. cbn.
  destruct p as [| | | | | | | | | |]; try destruct Hh; cbn; eauto.
  - destruct (Hhit _ _ Hp) as [a Hk]. rewrite Hk. eauto.
  - destruct (cache s !! key) as [a|] eqn:Hk; [|eauto].
    destruct (lookup_lt_is_Some_2 (entries s) a (Hc _ _ Hk)) as [e He].
    rewrite He. cbn. destruct (event e); eauto.
  - destruct (Hpeek _ _ Hp) as (a & e & Hk & He & _).
    rewrite Hk. cbn. rewrite He. cbn. eauto.
Qed.

(** A thread outside the lock that is not waiting can take its next
    step. *)
Lemma worker_can_step s i p :
  inv s ->
  threads s !! i = Some p ->
  (∃ key a, p = InitBranch key false a ∨ p = InitSet key a ∨
            p = InitReturn key a) ->
  is_Some (step_thread i s).
Proof.
  intros (_ & [_ Ht] & _) Hp (key & a & Hcase).
  unfold step_thread. rewrite Hp. cbn.
  destruct Hcase as [-> | [-> | ->]]; cbn.
  - destruct (_init_value_dispatch key (clock s)); eauto.
  - eauto.
  - destruct (lookup_lt_is_Some_2 (entries s) a (Ht _ _ _ Hp eq_refl))
      as [e He]. rewrite He. cbn. eauto.
Qed.

(** Without an exception there is no deadlock: when no thread can take
    a step, every call has returned. *)
Lemma no_deadlock (calls : list call) s :
  reachable calls s -> no_exception s -> stuck s ->
  ∀ i p, threads s !! i = Some p -> ∃ c a r, p = Done c a (Return r).
Proof.
  intros Hreach Hnoex Hstuck i p Hp.
  pose proof (inv_reachable _ _ Hreach) as Hinv.
  pose proof (live_inv_reachable _ _ Hreach) as Hlive.
  assert (Hno : ∀ j q, threads s !! j = Some q ->
                       is_Some (step_thread j s) -> False).
  { intros j q _ [s' Hs']. rewrite (Hstuck j) in Hs'. discriminate Hs'. }
  assert (Hholder : ∀ j q, threads s !! j = Some q -> holds_lock q -> False).
  { intros j q Hq Hh. eapply Hno; [exact Hq|].
    eapply holder_can_step; eassumption. }
  destruct p as [c|key|key|key|key [|] a|key a|key a|key|key| |c oa [r|]].
  - (* waiting for the lock: its holder can move *)
    pose proof (Hstuck i) as Hi. unfold step_thread in Hi. rewrite Hp in Hi.
    cbn in Hi. destruct (cache_lock s) as [j|] eqn:Hl; [|discriminate Hi].
    destruct Hlive as (Hlk & _). destruct (Hlk _ Hl) as (q & Hq & Hh).
    destruct (Hholder _ _ Hq Hh).
  - destruct (Hholder _ _ Hp I).
  - destruct (Hholder _ _ Hp I).
  - destruct (Hholder _ _ Hp I).
  - (* waiting for the event: the owner of the entry can move *)
    pose proof (Hstuck i) as Hi. unfold step_thread in Hi. rewrite Hp in Hi.
    cbn in Hi. destruct Hinv as (_ & [_ Ht] & _).
    destruct (lookup_lt_is_Some_2 (entries s) a (Ht _ _ _ Hp eq_refl))
      as [e He].
    rewrite He in Hi. cbn in Hi.
    destruct (event e) eqn:Hev; [discriminate Hi|].
    destruct Hlive as (_ & _ & Hex).
    destruct (Hex _ _ He Hev) as (j & q & Hq & Ho). exfalso.
    destruct q as [| | | |key' [|] a'| | | | | |[] [] []]; try discriminate Ho.
    + eapply (Hno _ _ Hq), worker_can_step; eauto 6 using inv_reachable.
    + eapply (Hno _ _ Hq), worker_can_step; eauto 6 using inv_reachable.
    + eapply Hnoex; exact Hq.
  - exfalso. eapply (Hno _ _ Hp), worker_can_step;
      eauto 6 using inv_reachable.
  - exfalso. eapply (Hno _ _ Hp), worker_can_step;
      eauto 6 using inv_reachable.
  - exfalso. eapply (Hno _ _ Hp), worker_can_step;
      eauto 7 using inv_reachable.
  - destruct (Hholder _ _ Hp I).
  - destruct (Hholder _ _ Hp I).
  - destruct (Hholder _ _ Hp I).
  - eauto.
  - destruct (Hnoex _ _ _ Hp).
Qed.

(** Every step uses up work: a run of [n] calls has at most [6 * n]
    steps. *)
Lemma work_left_step s i s' :
  step_thread i s = Some s' -> S (work_left s') <= work_left s.
Proof.
  assert (Hsum : ∀ (l : list (pc (G := G))) i p p',
            l !! i = Some p -> S (steps_left p') <= steps_left p ->
            S (sum_list (steps_left <$> <[i := p']> l))
            <= sum_list (steps_left <$> l)).
  { induction l as [|x l IH]; intros [|j] p p' Hl Hlt; cbn in *;
      try discriminate Hl.
    - injection Hl as ->. apply (Nat.add_le_mono (S _) _ _ _ Hlt (le_n _)).
    - specialize (IH _ _ _ Hl Hlt). rewrite <- Nat.add_succ_r.
      apply Nat.add_le_mono; [apply le_n|exact IH]. }
  intros Hstep. unfold work_left.
  step_cases Hstep; cbn [threads]; (eapply Hsum; [exact Hp|cbn; lia]).
Qed.

(** X5.  Every run ends: a schedule that has been run from the initial
    state is no longer than six steps per call, less the steps its
    threads still have to take. *)
Lemma run_bounded (calls : list call) (schedule : list nat) s :
  run schedule (init (G := G) calls) = Some s ->
  length schedule + work_left s <= 6 * length calls.
Proof.
  assert (Hrun : ∀ schedule s0 s1,
            run schedule s0 = Some s1 ->
            length schedule + work_left (G := G) s1 <= work_left s0).
  { induction schedule0 as [|i rest IH]; intros s0 s1 Hr; cbn in Hr.
    - injection Hr as <-. cbn. lia.
    - destruct (step_thread i s0) as [s2|] eqn:Hstep; [|discriminate Hr].
      cbn in Hr. pose proof (IH _ _ Hr). pose proof (work_left_step _ _ _ Hstep).
      cbn. lia. }
  intros Hr. pose proof (Hrun _ _ _ Hr) as Hb.
  assert (work_left (init (G := G) calls) = 6 * length calls) as Hw.
  { unfold work_left. cbn. clear. induction calls as [|c l IH]; cbn; [done|].
    rewrite IH. lia. }
  lia.
Qed.


(** Thread [i] runs the [i]-th call. *)
Lemma threads_calls (calls : list call) s :
  reachable calls s -> call_of <$> threads s = calls.
Proof.
  induction 1 as [|s i s' _ IH Hstep].
  - cbn. rewrite <- list_fmap_compose. apply list_fmap_id.
  - assert (Hsame : ∀ p p', threads s !! i = Some p ->
                            call_of p' = call_of p ->
                            call_of <$> <[i := p']> (threads s) = calls).
    { intros p p' Hp Hc. rewrite list_fmap_insert, Hc, <- IH.
      apply list_insert_id. by rewrite list_lookup_fmap, Hp. }
    step_cases Hstep; cbn [threads]; (eapply Hsame; reflexivity).
Qed.

Lemma finished_stays s j s' i fc fa fe :
  step_thread j s = Some s' ->
  threads s !! i = Some (Done fc fa fe) ->
  threads s' !! i = Some (Done fc fa fe).
Proof.
  intros Hstep Hi. step_cases Hstep; cbn;
    (rewrite list_lookup_insert_ne; [exact Hi|intros <-; congruence]).
Qed.

Lemma run_finished (schedule : list nat) s s' i fc fa fe :
  run schedule s = Some s' ->
  threads s !! i = Some (Done fc fa fe) ->
  threads s' !! i = Some (Done fc fa fe).
Proof.
  revert s. induction schedule as [|j rest IH]; intros s Hrun Hi; cbn in Hrun.
  - by injection Hrun as <-.
  - destruct (step_thread j s) as [s1|] eqn:Hstep; [|discriminate Hrun].
    cbn in Hrun. eapply IH; [exact Hrun|]. eapply finished_stays; eassumption.
Qed.

(** *** The three claims on the cache *)

(** C1.  Before the first [reset], whatever the callers and however
    their steps interleave: [_init_value_dispatch] has been called at
    most once for a key; every call of [_init_value] for that key that
    has returned got what that one compile returned, nothing if it
    returned nothing and else the result of a [copy] of the object it
    returned; and when no call has ended in an exception and no thread
    can move any more, every caller of [_init_value] for the key has
    returned. *)
Theorem compile_at_most_once (calls : list call) s (key : Key) :
  reachable calls s ->
  resets s = 0 ->
  length (compiles_of key s) <= 1 ∧
  (∀ i a r,
     threads s !! i = Some (Done (InitValue key) a (Return r)) ->
     ∃ v, compiles_of key s = [(key, Returns v)] ∧ copy_of v r) ∧
  (no_exception s -> stuck s ->
   ∀ i, calls !! i = Some (InitValue key) ->
        ∃ a r, threads s !! i = Some (Done (InitValue key) a (Return r))).
Proof.
  intros Hreach Hr.
  destruct (inv_reachable _ _ Hreach)
    as (_ & _ & _ & _ & _ & _ & Hres & Hrst).
  destruct (Hrst Hr) as [Hec Hlog].
  destruct (Hlog key) as (Hlen & _ & Hset & _).
  split; [exact Hlen|]. split.
  - intros i a r Hi.
    pose proof (Hres _ _ Hi) as Hri. cbn in Hri.
    destruct a as [a|]; [|destruct Hri as [_ Hc]; by destruct (Hc key)].
    destruct Hri as (e & He & Hev & Hcp).
    exists (value e). split; [|exact Hcp].
    eapply Hset; [|exact He|exact Hev]. eapply Hec; [exact Hi|reflexivity].
  - intros Hnoex Hstuck i Hi.
    rewrite <- (threads_calls _ _ Hreach), list_lookup_fmap in Hi.
    destruct (threads s !! i) as [p|] eqn:Hp; [|discriminate Hi].
    injection Hi as Hc.
    destruct (no_deadlock _ _ Hreach Hnoex Hstuck _ _ Hp) as (c & a & r & ->).
    cbn in Hc. subst c. eauto.
Qed.

(** C2, as the code has it.  When the compile of a key has raised, the
    exception has ended the call that compiled, and from then on, in
    every later state: the entry that call created holds no value and
    its event is not set, so that no thread waiting on that entry can
    take a step; and before the first [reset] that entry is the one the
    cache holds for the key, for which the one compile made has
    raised. *)
Theorem compile_exception_leaves_entry_pending (calls : list call) s
    (i : nat) (key : Key) (a : nat) :
  reachable calls s ->
  threads s !! i = Some (Done (InitValue key) (Some a) Exception) ->
  ∀ schedule s',
    run schedule s = Some s' ->
    threads s' !! i = Some (Done (InitValue key) (Some a) Exception) ∧
    entries s' !! a = Some {| value := None; event := false |} ∧
    (∀ j p, threads s' !! j = Some p -> waits_on p a ->
            step_thread j s' = None) ∧
    (resets s' = 0 ->
     cache s' !! key = Some a ∧ compiles_of key s' = [(key, Raises)]).
Proof.
  intros Hreach Hi schedule s' Hrun.
  pose proof (run_finished _ _ _ _ _ _ _ Hrun Hi) as Hi'.
  pose proof (run_reachable _ _ _ _ Hreach Hrun) as Hreach'.
  destruct (inv_reachable _ _ Hreach')
    as (_ & [_ Ht] & _ & _ & _ & Hpend & _ & Hrst).
  destruct (lookup_lt_is_Some_2 (entries s') a (Ht _ _ _ Hi' eq_refl))
    as [e He].
  destruct (Hpend _ _ _ _ Hi' eq_refl He) as [Hev [Hv|[? [=]]]].
  assert (e = {| value := None; event := false |}) as ->.
  { destruct e; cbn in *; congruence. }
  split; [exact Hi'|]. split; [exact He|]. split.
  - intros j p Hj [key' ->]. unfold step_thread. rewrite Hj. cbn.
    rewrite He. reflexivity.
  - intros Hr. destruct (Hrst Hr) as [Hec Hlog]. split.
    + eapply Hec; [exact Hi'|reflexivity].
    + destruct (Hlog key) as (_ & _ & _ & Hown).
      apply (Hown _ _ _ Hi' eq_refl eq_refl).
Qed.

(** C8.  Given that [copy] returns an object other than the one it is
    called on: a call of [_init_value] or [get_cached_value] that has
    returned an object read a signalled entry, and the object is the
    result of [copy] on the object stored there, never that object
    itself; when the entry stores nothing, or no entry was read, the
    call returned nothing. *)
Theorem returned_objects_are_copies (calls : list call) s
    (i : nat) (c : call) (a : option nat) (r : option G) :
  (∀ g n, copy g n ≠ g) ->
  reachable calls s ->
  threads s !! i = Some (Done c a (Return r)) ->
  match a with
  | Some a =>
      ∃ e, entries s !! a = Some e ∧ event e = true ∧
           match value e with
           | Some stored => ∃ n, r = Some (copy stored n) ∧ r ≠ Some stored
           | None => r = None
           end
  | None => r = None
  end.
Proof.
  intros Hcopy Hreach Hi.
  destruct (inv_reachable _ _ Hreach)
    as (_ & _ & _ & _ & _ & _ & Hres & _).
  pose proof (Hres _ _ Hi) as Hri. cbn in Hri.
  destruct a as [a|]; [|by destruct Hri].
  destruct Hri as (e & He & Hev & Hcp). exists e. repeat split; [done..|].
  unfold copy_of in Hcp. destruct (value e) as [g|]; [|exact Hcp].
  destruct Hcp as [n ->]. exists n. split; [reflexivity|].
  intros [= Heq]. by apply (Hcopy g n).
Qed.

(** *** Further properties of the cache *)

(** X1.  The lock: at most one thread is inside a [with self.cache_lock]
    block, the lock is held exactly while some thread is inside one, and
    it is free whenever no thread can move. *)
Theorem lock_discipline (calls : list call) s :
  reachable calls s ->
  (∀ i j p q,
     threads s !! i = Some p -> threads s !! j = Some q ->
     holds_lock p -> holds_lock q -> i = j) ∧
  (∀ i, cache_lock s = Some i ↔
        ∃ p, threads s !! i = Some p ∧ holds_lock p) ∧
  (stuck s -> cache_lock s = None).
Proof.
  intros Hreach.
  pose proof (inv_reachable _ _ Hreach) as Hinv.
  pose proof (live_inv_reachable _ _ Hreach) as Hlive.
  destruct Hinv as (Hmx & Hrest). destruct Hlive as (Hlk & Hrest').
  split_and!.
  - intros i j p q Hp Hq Hhp Hhq.
    pose proof (Hmx _ _ Hp Hhp). pose proof (Hmx _ _ Hq Hhq). congruence.
  - intros i. split; [apply Hlk|]. intros (p & Hp & Hh). eapply Hmx; eauto.
  - intros Hstuck. destruct (cache_lock s) as [i|] eqn:Hl; [|done].
    destruct (Hlk _ Hl) as (p & Hp & Hh).
    destruct (holder_can_step s i p) as [s' Hs']; [by split|by split|done..|].
    rewrite (Hstuck i) in Hs'. discriminate Hs'.
Qed.

Lemma ready_entry_step s i s' ra re :
  inv s -> step_thread i s = Some s' ->
  entries s !! ra = Some re -> event re = true -> entries s' !! ra = Some re.
Proof.
  intros (Hmx & [Hc Ht] & Hinj & [Hmiss Hpeek] & Huniq & Hpend & Hres & _)
    Hstep He Hev.
  step_cases Hstep; cbn; try exact He.
  - by apply lookup_app_l_Some.
  - rewrite list_lookup_alter_ne; [done|]. intros <-.
    destruct (Hpend _ _ _ _ Hp eq_refl He) as [Hf _]. congruence.
  - destruct (decide (a = ra)) as [->|Hne].
    + rewrite list_lookup_alter_eq, He. cbn. f_equal.
      destruct re as [v ev]; cbn in *. subst ev. reflexivity.
    + by rewrite list_lookup_alter_ne.
Qed.

(** X2.  An entry that is signalled stays as it is: in every later state
    it holds the same value and its event is set. *)
Theorem ready_entry_is_final (calls : list call) s (a : nat)
    (e : CacheEntry) :
  reachable calls s ->
  entries s !! a = Some e ->
  event e = true ->
  ∀ schedule s', run schedule s = Some s' -> entries s' !! a = Some e.
Proof.
  intros Hreach He Hev schedule. revert s Hreach He.
  induction schedule as [|i rest IH]; intros s Hreach He s' Hrun; cbn in Hrun.
  - by injection Hrun as <-.
  - destruct (step_thread i s) as [s1|] eqn:Hstep; [|discriminate Hrun].
    cbn in Hrun. eapply (IH s1); [by eapply reach_step| |exact Hrun].
    eapply ready_entry_step; eauto using inv_reachable.
Qed.

Lemma sum_insert (f : pc (G := G) -> nat) (l : list pc) i p p' :
  l !! i = Some p ->
  sum_list (f <$> <[i := p']> l) + f p = sum_list (f <$> l) + f p'.
Proof.
  revert i. induction l as [|x l IH]; intros [|j] Hl; simpl in *;
    try discriminate Hl.
  - injection Hl as ->. clear IH.
    generalize (sum_list (f <$> l)) (f p) (f p'). intros; lia.
  - rewrite <- !Nat.add_assoc. f_equal. exact (IH _ Hl).
Qed.

Lemma generation_ok_step s i s' :
  inv s -> generation_ok s -> step_thread i s = Some s' -> generation_ok s'.
Proof.
  intros (Hmx & _ & _ & [Hmiss _] & _) Hgen Hstep k. specialize (Hgen k).
  unfold compiles_due, cached in *.
  step_cases Hstep; cbn [threads cache resets];
    rewrite ?compiles_of_snoc, ?compiles_of_same;
    match goal with
    | |- context [<[_ := ?p']> (threads s)] =>
        pose proof (sum_insert (compile_due k) _ _ _ p' Hp) as Hs
    end;
    cbn in Hs; rewrite ?length_app;
    try (rewrite lookup_empty; destruct (cache s !! k));
    try (destruct (decide (key = k)) as [->|Hk];
         [ try rewrite lookup_insert_eq; try rewrite (Hmiss _ _ Hp) in Hgen
         | try rewrite lookup_insert_ne by done ]);
    cbn [length] in *;
    revert Hs Hgen;
    generalize (sum_list (compile_due k <$> threads s));
    try match goal with
        | |- context [sum_list ?l] => generalize (sum_list l)
        end;
    generalize (length (compiles_of k s)); intros; lia.
Qed.

Lemma generation_ok_reachable (calls : list call) s :
  reachable calls s -> generation_ok s.
Proof.
  induction 1 as [|s i s' Hs IH Hstep].
  - intros k. unfold compiles_due, cached. cbn. rewrite lookup_empty.
    assert (sum_list (compile_due k <$> (Start <$> calls)) = 0) as ->; [|lia].
    clear. induction calls as [|c l IH]; cbn; [done|exact IH].
  - eapply generation_ok_step; eauto using inv_reachable.
Qed.

(** X3.  Across resets a key is compiled at most once per cache
    generation: the compiles made for a key never outnumber the resets
    by more than one. *)
Theorem compiles_bounded_by_resets (calls : list call) s (key : Key) :
  reachable calls s ->
  length (compiles_of key s) <= S (resets s).
Proof.
  intros Hreach. pose proof (generation_ok_reachable _ _ Hreach key) as Hg.
  unfold cached in Hg. destruct (cache s !! key); lia.
Qed.

(** X4.  Without an exception there is no deadlock, resets or not: when
    no call has ended in an exception and no thread can move, every
    call, [_init_value], [get_cached_value] or [reset], has returned. *)
Theorem all_calls_return (calls : list call) s :
  reachable calls s ->
  no_exception s ->
  stuck s ->
  length (threads s) = length calls ∧
  ∀ i c, calls !! i = Some c ->
         ∃ a r, threads s !! i = Some (Done c a (Return r)).
Proof.
  intros Hreach Hnoex Hstuck. pose proof (threads_calls _ _ Hreach) as Hc.
  split; [by rewrite <- Hc, length_fmap|].
  intros i c Hi. rewrite <- Hc, list_lookup_fmap in Hi.
  destruct (threads s !! i) as [p|] eqn:Hp; [|discriminate Hi].
  injection Hi as Hcall.
  destruct (no_deadlock _ _ Hreach Hnoex Hstuck _ _ Hp) as (c' & a & r & ->).
  cbn in Hcall. subst c'. eauto.
Qed.

(** *** Where the values of the entries come from *)

Lemma ref_has_addr p key a : ref_of p = Some (key, a) -> addr_of p = Some a.
Proof.
  destruct p as [| | | |? [|] ?| | | | | |[] [] []]; cbn; congruence.
Qed.

Lemma ref_after_goto s i p p' j q k x :
  threads s !! i = Some p -> ref_source s p p' ->
  <[i := p']> (threads s) !! j = Some q -> ref_of q = Some (k, x) ->
  (∃ j' q', threads s !! j' = Some q' ∧ ref_of q' = Some (k, x)) ∨
  cache s !! k = Some x.
Proof.
  intros Hp Hsrc Hj Hr.
  destruct (lookup_goto _ _ _ _ _ _ Hp Hj) as [[-> ->]|[Hne Hj']].
  - destruct (Hsrc _ _ Hr) as [Hold|Hc]; eauto.
  - eauto.
Qed.

Lemma addr_key_goto s (i : nat) p p' (c' : gmap Key nat) :
  inv s -> addr_key_on (cache s) (threads s) ->
  threads s !! i = Some p -> ref_source s p p' ->
  (∀ k x, c' !! k = Some x -> cache s !! k = Some x) ->
  addr_key_on c' (<[i := p']> (threads s)).
Proof.
  intros (_ & _ & Hinj & _) [Ha Hb] Hp Hsrc Hsub. split.
  - intros j1 j2 q1 q2 k1 k2 x H1 H2 Hr1 Hr2.
    destruct (ref_after_goto _ _ _ _ _ _ _ _ Hp Hsrc H1 Hr1)
      as [(j1' & q1' & Hq1 & Hr1')|Hc1];
      destruct (ref_after_goto _ _ _ _ _ _ _ _ Hp Hsrc H2 Hr2)
        as [(j2' & q2' & Hq2 & Hr2')|Hc2].
    + eapply Ha; [exact Hq1|exact Hq2|exact Hr1'|exact Hr2'].
    + eapply Hb; eassumption.
    + symmetry. eapply Hb; eassumption.
    + eapply Hinj; eassumption.
  - intros j q k1 k2 x Hj Hr Hc. apply Hsub in Hc.
    destruct (ref_after_goto _ _ _ _ _ _ _ _ Hp Hsrc Hj Hr)
      as [(j' & q' & Hq & Hr')|Hc1].
    + eapply Hb; eassumption.
    + eapply Hinj; eassumption.
Qed.

Lemma provenance_goto s (i : nat) p p' (c' : gmap Key nat) :
  provenance_on (cache s) (entries s) (threads s) ->
  threads s !! i = Some p -> ref_source s p p' ->
  (∀ k x, c' !! k = Some x -> cache s !! k = Some x) ->
  (∀ k x, p' ≠ InitSet k x) ->
  provenance_on c' (entries s) (<[i := p']> (threads s)).
Proof.
  intros (Ha & Hb & Hc) Hp Hsrc Hsub Hns. split_and!.
  - intros j q k x e0 Hj Hr He Hh.
    destruct (ref_after_goto _ _ _ _ _ _ _ _ Hp Hsrc Hj Hr)
      as [(j' & q' & Hq & Hr')|Hc1].
    + eapply Ha; eassumption.
    + eapply Hb; eassumption.
  - intros k x e0 Hk. eapply Hb. by apply Hsub.
  - intros j k x e0 Hj.
    destruct (lookup_goto _ _ _ _ _ _ Hp Hj) as [[-> Heq]|[Hne Hj']].
    + symmetry in Heq. destruct (Hns _ _ Heq).
    + eapply Hc; eassumption.
Qed.

Lemma pending_holds_nothing :
  ¬ holds_result (G := G) {| value := None; event := false |}.
Proof. intros [Hev|[g Hv]]; discriminate. Qed.

Lemma prov_inv_step s i s' :
  inv s -> prov_inv s -> step_thread i s = Some s' -> prov_inv s'.
Proof.
  intros Hinv [Hak Hpv] Hstep.
  pose proof Hinv
    as (Hmx & [Hc Ht] & Hinj & [Hmiss Hpeek] & Huniq & Hpend & Hres & _).
  pose proof Hak as [Ha1 Ha2]. pose proof Hpv as (Hp1 & Hp2 & Hp3).
  unfold prov_inv.
  step_cases Hstep; cbn [cache entries threads];
    try (split;
         [ eapply addr_key_goto; [exact Hinv|exact Hak|exact Hp| |];
           [ intros k0 x0 Hr; cbn in Hr;
             first [ discriminate Hr
                   | injection Hr as <- <-;
                     first [left; reflexivity|right; assumption] ]
           | first [ intros k0 x0 Hk; exact Hk
                   | intros k0 x0 Hk; rewrite lookup_empty in Hk;
                     discriminate Hk ] ]
         | eapply provenance_goto; [exact Hpv|exact Hp| | |];
           [ intros k0 x0 Hr; cbn in Hr;
             first [ discriminate Hr
                   | injection Hr as <- <-;
                     first [left; reflexivity|right; assumption] ]
           | first [ intros k0 x0 Hk; exact Hk
                   | intros k0 x0 Hk; rewrite lookup_empty in Hk;
                     discriminate Hk ]
           | intros k0 x0; discriminate ] ]).
  - (* lines 92-94: a new entry, unsignalled and empty *)
    assert (Hlt : ∀ j q k x, threads s !! j = Some q ->
                             ref_of q = Some (k, x) -> x < length (entries s)).
    { intros j q k x Hq Hr. eapply Ht; [exact Hq|by eapply ref_has_addr]. }
    split; [split|split_and!].
    + intros j1 j2 q1 q2 k1 k2 x H1 H2 Hr1 Hr2.
      destruct (lookup_goto _ _ _ _ _ _ Hp H1) as [[-> ->]|[Hn1 H1']];
        destruct (lookup_goto _ _ _ _ _ _ Hp H2) as [[-> ->]|[Hn2 H2']];
        cbn in Hr1, Hr2.
      * congruence.
      * injection Hr1 as <- <-. pose proof (Hlt _ _ _ _ H2' Hr2). lia.
      * injection Hr2 as <- <-. pose proof (Hlt _ _ _ _ H1' Hr1). lia.
      * eapply Ha1; [exact H1'|exact H2'|exact Hr1|exact Hr2].
    + intros j q k1 k2 x Hj Hr Hk.
      destruct (lookup_goto _ _ _ _ _ _ Hp Hj) as [[-> ->]|[Hn Hj']];
        apply lookup_insert_Some in Hk as [[<- <-]|[Hne Hk]]; cbn in Hr.
      * congruence.
      * injection Hr as <- <-. pose proof (Hc _ _ Hk). lia.
      * pose proof (Hlt _ _ _ _ Hj' Hr). lia.
      * eapply Ha2; eassumption.
    + intros j q k x e0 Hj Hr He Hh.
      destruct (lookup_goto _ _ _ _ _ _ Hp Hj) as [[-> ->]|[Hn Hj']];
        cbn in Hr.
      * injection Hr as <- <-.
        rewrite lookup_app_r, Nat.sub_diag in He by lia.
        injection He as <-. destruct (pending_holds_nothing Hh).
      * rewrite lookup_app_l in He by (eapply Hlt; eassumption).
        eapply Hp1; eassumption.
    + intros k x e0 Hk He Hh.
      apply lookup_insert_Some in Hk as [[<- <-]|[Hne Hk]].
      * rewrite lookup_app_r, Nat.sub_diag in He by lia.
        injection He as <-. destruct (pending_holds_nothing Hh).
      * rewrite lookup_app_l in He by (eapply Hc; eassumption).
        eapply Hp2; eassumption.
    + intros j k x e0 Hj He.
      destruct (lookup_goto _ _ _ _ _ _ Hp Hj) as [[-> [=]]|[Hn Hj']].
      rewrite lookup_app_l in He by (eapply Hlt; [exact Hj'|reflexivity]).
      eapply Hp3; eassumption.
  - (* line 99: the value the compile returned is stored *)
    assert (Hnew : ∀ e0, entries s !! a = Some e0 ->
                         produced key (set_value v e0)).
    { intros e0 _. exists (clock s). cbn. assumption. }
    assert (Hkey : ∀ j q k, <[i := InitSet key a]> (threads s) !! j = Some q ->
                            ref_of q = Some (k, a) -> k = key).
    { intros j q k Hj Hr.
      destruct (lookup_goto _ _ _ _ _ _ Hp Hj) as [[-> ->]|[Hn Hj']].
      - cbn in Hr. congruence.
      - eapply Ha1; [exact Hj'|exact Hp|exact Hr|reflexivity]. }
    split.
    { eapply addr_key_goto; [exact Hinv|exact Hak|exact Hp| |auto].
      intros k0 x0 Hr. cbn in Hr. injection Hr as <- <-. by left. }
    split_and!.
    + intros j q k x e0 Hj Hr He Hh. destruct (decide (x = a)) as [->|Hne].
      * rewrite (Hkey _ _ _ Hj Hr). rewrite list_lookup_alter_eq in He.
        destruct (entries s !! a) as [e1|] eqn:He1; [|discriminate He].
        injection He as <-. by eapply Hnew.
      * rewrite list_lookup_alter_ne in He by done.
        destruct (lookup_goto _ _ _ _ _ _ Hp Hj) as [[-> ->]|[Hn Hj']].
        { cbn in Hr. congruence. }
        eapply Hp1; eassumption.
    + intros k x e0 Hk He Hh. destruct (decide (x = a)) as [->|Hne].
      * assert (key = k) as <-
          by (eapply Ha2; [exact Hp|reflexivity|exact Hk]).
        rewrite list_lookup_alter_eq in He.
        destruct (entries s !! a) as [e1|] eqn:He1; [|discriminate He].
        injection He as <-. by eapply Hnew.
      * rewrite list_lookup_alter_ne in He by done. eapply Hp2; eassumption.
    + intros j k x e0 Hj He. destruct (decide (x = a)) as [->|Hne].
      * rewrite (Hkey _ _ k Hj eq_refl). rewrite list_lookup_alter_eq in He.
        destruct (entries s !! a) as [e1|] eqn:He1; [|discriminate He].
        injection He as <-. by eapply Hnew.
      * rewrite list_lookup_alter_ne in He by done.
        destruct (lookup_goto _ _ _ _ _ _ Hp Hj) as [[-> [=]]|[Hn Hj']];
          [congruence|].
        eapply Hp3; eassumption.
  - (* line 100: the event is set on the value stored *)
    assert (Hnew : ∀ e0, entries s !! a = Some e0 ->
                         produced key (set_event e0)).
    { intros e0 He0. destruct (Hp3 _ _ _ _ Hp He0) as [n Hn]. by exists n. }
    assert (Hkey : ∀ j q k,
              <[i := InitReturn key a]> (threads s) !! j = Some q ->
              ref_of q = Some (k, a) -> k = key).
    { intros j q k Hj Hr.
      destruct (lookup_goto _ _ _ _ _ _ Hp Hj) as [[-> ->]|[Hn Hj']].
      - cbn in Hr. congruence.
      - eapply Ha1; [exact Hj'|exact Hp|exact Hr|reflexivity]. }
    split.
    { eapply addr_key_goto; [exact Hinv|exact Hak|exact Hp| |auto].
      intros k0 x0 Hr. cbn in Hr. injection Hr as <- <-. by left. }
    split_and!.
    + intros j q k x e0 Hj Hr He Hh. destruct (decide (x = a)) as [->|Hne].
      * rewrite (Hkey _ _ _ Hj Hr). rewrite list_lookup_alter_eq in He.
        destruct (entries s !! a) as [e1|] eqn:He1; [|discriminate He].
        injection He as <-. by eapply Hnew.
      * rewrite list_lookup_alter_ne in He by done.
        destruct (lookup_goto _ _ _ _ _ _ Hp Hj) as [[-> ->]|[Hn Hj']].
        { cbn in Hr. congruence. }
        eapply Hp1; eassumption.
    + intros k x e0 Hk He Hh. destruct (decide (x = a)) as [->|Hne].
      * assert (key = k) as <-
          by (eapply Ha2; [exact Hp|reflexivity|exact Hk]).
        rewrite list_lookup_alter_eq in He.
        destruct (entries s !! a) as [e1|] eqn:He1; [|discriminate He].
        injection He as <-. by eapply Hnew.
      * rewrite list_lookup_alter_ne in He by done. eapply Hp2; eassumption.
    + intros j k x e0 Hj He.
      destruct (lookup_goto _ _ _ _ _ _ Hp Hj) as [[-> [=]]|[Hn Hj']].
      assert (x ≠ a) as Hne.
      { intros ->. apply Hn.
        eapply (Huniq _ _ _ _ _ Hj' Hp); reflexivity. }
      rewrite list_lookup_alter_ne in He by done. eapply Hp3; eassumption.
Qed.

Lemma prov_inv_reachable (calls : list call) s :
  reachable calls s -> prov_inv s.
Proof.
  induction 1 as [|s i s' Hs IH Hstep].
  - assert (Hstart : ∀ i p, threads (init (G := G) calls) !! i = Some p ->
                            ref_of p = None).
    { intros i p Hp. cbn in Hp. rewrite list_lookup_fmap in Hp.
      destruct (calls !! i); [|discriminate Hp]. by injection Hp as <-. }
    split; [split|split_and!].
    + intros i j p q k k' x Hp _ Hr. rewrite (Hstart _ _ Hp) in Hr.
      discriminate Hr.
    + intros i p k k' x Hp Hr. rewrite (Hstart _ _ Hp) in Hr.
      discriminate Hr.
    + intros i p k x e Hp Hr. rewrite (Hstart _ _ Hp) in Hr. discriminate Hr.
    + intros k x e Hk. cbn in Hk. rewrite lookup_empty in Hk. discriminate Hk.
    + intros i k x e Hp. pose proof (Hstart _ _ Hp) as Hr. discriminate Hr.
  - eapply prov_inv_step; eauto using inv_reachable.
Qed.

(** A call that has returned from reading the entry at [x] for [key]
    read a signalled entry, got a copy of its value, and that value was
    compiled for [key]. *)
Lemma done_produced (calls : list call) s i c key x r :
  reachable calls s ->
  threads s !! i = Some (Done c (Some x) (Return r)) ->
  c = InitValue key ∨ c = GetCachedValue key ->
  ∃ e, entries s !! x = Some e ∧ event e = true ∧ copy_of (value e) r ∧
       produced key e.
Proof.
  intros Hreach Hi Hc.
  destruct (inv_reachable _ _ Hreach)
    as (_ & _ & _ & _ & _ & _ & Hres & _).
  destruct (prov_inv_reachable _ _ Hreach) as [_ (Hp1 & _)].
  destruct (Hres _ _ Hi) as (e & He & Hev & Hcp).
  exists e. split_and!; try done.
  eapply Hp1; [exact Hi| |exact He|by left].
  destruct Hc as [-> | ->]; reflexivity.
Qed.


Lemma unrecognized_raises (key_type key_string : string) (n : nat) :
  recognized key_type = false ->
  _init_value_dispatch (key_type, key_string) n = Raises.
Proof.
  unfold recognized, _init_value_dispatch. intros Hr.
  destruct (String.eqb key_type "json"); [discriminate Hr|].
  destruct (String.eqb key_type "regex"); [discriminate Hr|].
  destruct (String.eqb key_type "ebnf"); [discriminate Hr|].
  destruct (String.eqb key_type "structural_tag"); [discriminate Hr|].
  reflexivity.
Qed.

(** X7.  A key whose kind is none of json, regex, ebnf and
    structural_tag: no call of [_init_value] for it ever returns, and a
    call of [get_cached_value] for it returns nothing, having read no
    value. *)
Theorem unknown_kind_never_returns (calls : list call) s
    (key_type key_string : string) :
  recognized key_type = false ->
  reachable calls s ->
  (∀ i x r,
     threads s !! i
       ≠ Some (Done (InitValue (key_type, key_string)) x (Return r))) ∧
  (∀ i x r,
     threads s !! i
       = Some (Done (GetCachedValue (key_type, key_string)) x (Return r)) ->
     x = None ∧ r = None).
Proof.
  intros Hkind Hreach.
  destruct (inv_reachable _ _ Hreach)
    as (_ & _ & _ & _ & _ & _ & Hres & _).
  split.
  - intros i [x|] r Hi.
    + destruct (done_produced _ _ _ _ (key_type, key_string) _ _
                  Hreach Hi) as (e & _ & _ & _ & [n Hn]); [by left|].
      rewrite unrecognized_raises in Hn by done. discriminate Hn.
    + destruct (Hres _ _ Hi) as [_ Hc]. by eapply Hc.
  - intros i [x|] r Hi.
    + destruct (done_produced _ _ _ _ (key_type, key_string) _ _
                  Hreach Hi) as (e & _ & _ & _ & [n Hn]); [by right|].
      rewrite unrecognized_raises in Hn by done. discriminate Hn.
    + destruct (Hres _ _ Hi) as [-> _]. done.
Qed.


End Properties.

(** *** The properties on concrete runs *)

Import Examples.

Lemma compile_at_most_once_witness :
  ∃ s,
    run json_schedule (init json_callers) = Some s ∧
    resets s = 0 ∧
    threads s !! 0
      = Some (Done (InitValue json_key) (Some 0) (Return (Some 3))) ∧
    threads s !! 1
      = Some (Done (InitValue json_key) (Some 0) (Return (Some 4))) ∧
    length (compiles_of json_key s) <= 1 ∧
    (∀ i a r,
       threads s !! i = Some (Done (InitValue json_key) a (Return r)) ->
       ∃ v, compiles_of json_key s = [(json_key, Returns v)] ∧ copy_of v r) ∧
    (no_exception s -> stuck s ->
     ∀ i, json_callers !! i = Some (InitValue json_key) ->
          ∃ a r,
            threads s !! i = Some (Done (InitValue json_key) a (Return r))).
Proof.
  eexists. split; [vm_compute; reflexivity|].
  split; [reflexivity|]. split; [reflexivity|]. split; [reflexivity|].
  apply (compile_at_most_once json_callers).
  - apply (run_reachable json_callers json_schedule (init json_callers));
      [apply reach_init|vm_compute; reflexivity].
  - reflexivity.
Defined.

(** C2 as stated fails: the first caller compiles a key of unknown
    kind, [dispatch_fallback] raises, and the entry stays in the cache
    without value and with its event not set; the second caller, which
    found the entry, waits on it, and no thread can take a step any
    more. *)
Lemma compile_exception_deadlocks_waiter :
  ∃ s,
    run yaml_schedule (init (G := nat) yaml_callers) = Some s ∧
    compiles_of yaml_key s = [(yaml_key, Raises)] ∧
    threads s !! 0 = Some (Done (InitValue yaml_key) (Some 0) Exception) ∧
    threads s !! 1 = Some (InitBranch yaml_key true 0) ∧
    cache s !! yaml_key = Some 0 ∧
    entries s !! 0 = Some {| value := None; event := false |} ∧
    stuck s.
Proof.
  eexists. split; [vm_compute; reflexivity|].
  repeat (split; [reflexivity|]).
  intros [|[|i]]; reflexivity.
Qed.

Lemma compile_exception_leaves_entry_pending_witness :
  ∃ s s',
    run [0; 0; 0; 0] (init (G := nat) yaml_callers) = Some s ∧
    threads s !! 0 = Some (Done (InitValue yaml_key) (Some 0) Exception) ∧
    run [1; 1; 1] s = Some s' ∧
    threads s' !! 0 = Some (Done (InitValue yaml_key) (Some 0) Exception) ∧
    entries s' !! 0 = Some {| value := None; event := false |} ∧
    (∀ j p, threads s' !! j = Some p -> waits_on p 0 ->
            step_thread j s' = None) ∧
    (resets s' = 0 ->
     cache s' !! yaml_key = Some 0 ∧
     compiles_of yaml_key s' = [(yaml_key, Raises)]).
Proof.
  eexists. eexists. split; [vm_compute; reflexivity|].
  split; [reflexivity|]. split; [vm_compute; reflexivity|].
  refine (compile_exception_leaves_entry_pending yaml_callers _ 0 yaml_key 0
            _ _ [1; 1; 1] _ _).
  - apply (run_reachable yaml_callers [0; 0; 0; 0] (init yaml_callers));
      [apply reach_init|vm_compute; reflexivity].
  - reflexivity.
  - vm_compute; reflexivity.
Defined.

Lemma numbering_copy_fresh (g n : nat) : copy g n ≠ g.
Proof. cbn. lia. Defined.

Lemma returned_objects_are_copies_witness :
  ∃ s,
    run json_schedule (init json_callers) = Some s ∧
    threads s !! 2
      = Some (Done (GetCachedValue json_key) (Some 0) (Return (Some 2))) ∧
    ∃ e, entries s !! 0 = Some e ∧ event e = true ∧
         match value e with
         | Some stored =>
             ∃ n, Some 2 = Some (copy stored n) ∧ Some 2 ≠ Some stored
         | None => Some 2 = None
         end.
Proof.
  eexists. split; [vm_compute; reflexivity|]. split; [reflexivity|].
  apply (returned_objects_are_copies json_callers _ 2
           (GetCachedValue json_key) (Some 0) (Some 2) numbering_copy_fresh).
  - apply (run_reachable json_callers json_schedule (init json_callers));
      [apply reach_init|vm_compute; reflexivity].
  - reflexivity.
Defined.

(** *** The further properties on concrete runs *)

(** Thread 0 has entered the [with] block of [_init_value]. *)
Lemma lock_discipline_witness :
  ∃ s,
    run [0] (init (G := nat) json_callers) = Some s ∧
    cache_lock s = Some 0 ∧
    (∀ i j p q,
       threads s !! i = Some p -> threads s !! j = Some q ->
       holds_lock p -> holds_lock q -> i = j) ∧
    (∀ i, cache_lock s = Some i ↔
          ∃ p, threads s !! i = Some p ∧ holds_lock p) ∧
    (stuck s -> cache_lock s = None).
Proof.
  eexists. split; [vm_compute; reflexivity|]. split; [reflexivity|].
  apply (lock_discipline json_callers).
  apply (run_reachable json_callers [0] (init json_callers));
    [apply reach_init|vm_compute; reflexivity].
Defined.

(** The entry of the json key once its event is set, and after the
    other calls have run. *)
Lemma ready_entry_is_final_witness :
  ∃ s s',
    run json_schedule_set (init (G := nat) json_callers) = Some s ∧
    entries s !! 0 = Some {| value := Some 0; event := true |} ∧
    run json_schedule_rest s = Some s' ∧
    entries s' !! 0 = Some {| value := Some 0; event := true |}.
Proof.
  eexists. eexists. split; [vm_compute; reflexivity|].
  split; [reflexivity|]. split; [vm_compute; reflexivity|].
  refine (ready_entry_is_final json_callers _ 0 _ _ _ _
            json_schedule_rest _ _).
  - apply (run_reachable json_callers json_schedule_set (init json_callers));
      [apply reach_init|vm_compute; reflexivity].
  - reflexivity.
  - reflexivity.
  - vm_compute; reflexivity.
Defined.

(** A compile, a reset and a lookup of the same key: the second caller
    compiles anew, two compiles for one reset. *)
Lemma compiles_bounded_by_resets_witness :
  ∃ s,
    run reset_schedule (init (G := nat) reset_callers) = Some s ∧
    resets s = 1 ∧
    compiles_of json_key s
      = [(json_key, Returns (Some 0)); (json_key, Returns (Some 2))] ∧
    length (compiles_of json_key s) <= S (resets s).
Proof.
  eexists. split; [vm_compute; reflexivity|].
  split; [reflexivity|]. split; [reflexivity|].
  apply (compiles_bounded_by_resets reset_callers).
  apply (run_reachable reset_callers reset_schedule (init reset_callers));
    [apply reach_init|vm_compute; reflexivity].
Defined.

Lemma all_calls_return_witness :
  ∃ s,
    run json_schedule (init (G := nat) json_callers) = Some s ∧
    (no_exception s ∧ stuck s) ∧
    length (threads s) = length json_callers ∧
    ∀ i c, json_callers !! i = Some c ->
           ∃ a r, threads s !! i = Some (Done c a (Return r)).
Proof.
  eexists. split; [vm_compute; reflexivity|].
  split;
    [split;
     [ intros [|[|[|i]]] c a Hi; cbn in Hi; discriminate Hi
     | intros [|[|[|i]]]; reflexivity ]|].
  apply (all_calls_return json_callers).
  - apply (run_reachable json_callers json_schedule (init json_callers));
      [apply reach_init|vm_compute; reflexivity].
  - intros [|[|[|i]]] c a Hi; cbn in Hi; discriminate Hi.
  - intros [|[|[|i]]]; reflexivity.
Defined.

Lemma run_bounded_witness :
  ∃ s,
    run json_schedule (init (G := nat) json_callers) = Some s ∧
    length json_schedule = 14 ∧
    length json_schedule + work_left s <= 6 * length json_callers.
Proof.
  eexists. split; [vm_compute; reflexivity|]. split; [reflexivity|].
  apply (run_bounded json_callers json_schedule). vm_compute; reflexivity.
Defined.


Lemma unknown_kind_never_returns_witness :
  ∃ s,
    run yaml_schedule (init (G := nat) yaml_callers) = Some s ∧
    recognized "yaml" = false ∧
    (∀ i x r,
       threads s !! i
         ≠ Some (Done (InitValue ("yaml", "a: 1")) x (Return r))) ∧
    (∀ i x r,
       threads s !! i
         = Some (Done (GetCachedValue ("yaml", "a: 1")) x (Return r)) ->
       x = None ∧ r = None).
Proof.
  eexists. split; [vm_compute; reflexivity|]. split; [reflexivity|].
  eapply (unknown_kind_never_returns yaml_callers _ "yaml" "a: 1");
    [reflexivity|].
  apply (run_reachable yaml_callers yaml_schedule (init yaml_callers));
    [apply reach_init|vm_compute; reflexivity].
Defined.

End GrammarBackendTheory.
